(** * CPU process scheduling simulator: the five policy engines

    A shallow embedding of [fcfs_scheduling], [spn_scheduling],
    [hrrn_scheduling], [rr_scheduling], [srtf_scheduling] and of the loop of
    [simulate_all_algorithms] in [process-scheduling-simulator.py].

    Modelling choices.
    - A process is a Python dict with the keys written by [add_process];
      it is a record here.  The engines mutate these dicts in place, and the
      lists they receive hold references to them, so the dicts live in a
      [store] indexed by object identity and the lists are lists of
      addresses.
    - Burst and arrival times are Python [int]s ([Z]).  The context switch
      is read with [float(...)], so every clock value is a Python float; it
      is an exact rational ([Q]) here: rounding is not modelled.
    - [while] loops take a fuel argument; running out of fuel is the
      outcome [OutOfFuel], which is different from every Python result.

    Around the engines the development also embeds the commands of the
    window that edit the list of processes ([add_process],
    [clear_processes], [add_one_random], [generate_random_processes],
    [edit_process], [delete_process]), the guards of
    [simulate_all_algorithms] and of [export_results], the sort and the
    colour map of [plot_gantt_chart], and the filters and the controls of
    [animate_scheduling].  Random draws are arguments, the text of an entry
    is a string that [int(...)] may fail to read, and a message box is a
    value of [alert]. *)

From Stdlib Require Import String DecimalString DecimalNat OrderedTypeEx ZArith
  QArith Lqa Lia Bool Arith List Permutation.
Import ListNotations.
Open Scope Q_scope.

(** ** Data model *)

Record process := mkProcess {
  pid : string;
  cbt : Z;
  at_ : Z;
  remaining_time : Z;
  waiting_time : Q;
  turnaround_time : Q;
  response_time : Q;
  response_ratio : option Q
}.

(** The dict literal of [add_process], [add_one_random] and
    [generate_random_processes]; the key ['response_ratio'] is absent until
    HRRN writes it. *)
Definition new_process (p : string) (c a : Z) : process :=
  mkProcess p c a c 0 0 (-1) None.

Definition set_remaining_time (v : Z) (p : process) : process :=
  mkProcess (pid p) (cbt p) (at_ p) v (waiting_time p) (turnaround_time p)
            (response_time p) (response_ratio p).

Definition set_waiting_time (v : Q) (p : process) : process :=
  mkProcess (pid p) (cbt p) (at_ p) (remaining_time p) v (turnaround_time p)
            (response_time p) (response_ratio p).

Definition set_turnaround_time (v : Q) (p : process) : process :=
  mkProcess (pid p) (cbt p) (at_ p) (remaining_time p) (waiting_time p) v
            (response_time p) (response_ratio p).

Definition set_response_time (v : Q) (p : process) : process :=
  mkProcess (pid p) (cbt p) (at_ p) (remaining_time p) (waiting_time p)
            (turnaround_time p) v (response_ratio p).

Definition set_response_ratio (v : Q) (p : process) : process :=
  mkProcess (pid p) (cbt p) (at_ p) (remaining_time p) (waiting_time p)
            (turnaround_time p) (response_time p) (Some v).

(** Object identities and the store of process dicts. *)
Definition addr := nat.
Definition store := addr -> process.

Definition upd (st : store) (a : addr) (f : process -> process) : store :=
  fun x => if Nat.eqb x a then f (st x) else st x.

(** Python results: a value, a raised exception, or (model only) no fuel. *)
Inductive exn := ValueError | ZeroDivisionError | OverflowError.

Inductive outcome (A : Type) : Type :=
| Done (a : A)
| Raise (e : exn)
| OutOfFuel.
Arguments Done {A} a.
Arguments Raise {A} e.
Arguments OutOfFuel {A}.

Definition interval : Type := string * Q * Q.

(** The local accumulators every engine declares. *)
Record tally := mkTally {
  gantt_data : list interval;
  all_waiting_time : list Q;
  all_turnaround_time : list Q;
  all_response_time : list Q;
  total_waiting_time : Q;
  total_turnaround_time : Q;
  total_response_time : Q
}.

Definition tally0 : tally := mkTally [] [] [] [] 0 0 0.

Definition add_interval (i : interval) (t : tally) : tally :=
  mkTally (gantt_data t ++ [i]) (all_waiting_time t) (all_turnaround_time t)
          (all_response_time t) (total_waiting_time t)
          (total_turnaround_time t) (total_response_time t).

(** The six accumulation statements that follow the metrics of a finished
    process in every engine (FCFS lines 500-507, RR lines 694-701, ...):
    the turnaround goes to [all_response_time] and the response to
    [all_turnaround_time], as the source has it. *)
Definition record_metrics (p : process) (t : tally) : tally :=
  mkTally (gantt_data t)
          (all_waiting_time t ++ [waiting_time p])
          (all_turnaround_time t ++ [response_time p])
          (all_response_time t ++ [turnaround_time p])
          (total_waiting_time t + waiting_time p)
          (total_turnaround_time t + turnaround_time p)
          (total_response_time t + response_time p).

(** The [metrics] dict. *)
Module Metrics.
Record t := mk {
  avg_waiting_time : Q;
  avg_turnaround_time : Q;
  avg_response_time : Q;
  all_waiting_time : list Q;
  all_turnaround_time : list Q;
  all_response_time : list Q
}.
End Metrics.

(** [x / n] for a number [x] and [n = len(...)]: Python raises
    [ZeroDivisionError] when [n] is 0. *)
Definition py_div (x : Q) (n : nat) : outcome Q :=
  match n with
  | O => Raise ZeroDivisionError
  | S _ => Done (x / inject_Z (Z.of_nat n))
  end.

(** The dict literal of FCFS, SPN, HRRN and SRTF: three divisions, the first
    of which raises on an empty process list. *)
Definition make_metrics (t : tally) (n : nat) : outcome Metrics.t :=
  match py_div (total_waiting_time t) n with
  | Done w =>
      match py_div (total_turnaround_time t) n with
      | Done ta =>
          match py_div (total_response_time t) n with
          | Done r =>
              Done (Metrics.mk w ta r (all_waiting_time t)
                               (all_turnaround_time t) (all_response_time t))
          | Raise e => Raise e
          | OutOfFuel => OutOfFuel
          end
      | Raise e => Raise e
      | OutOfFuel => OutOfFuel
      end
  | Raise e => Raise e
  | OutOfFuel => OutOfFuel
  end.

(** The dict literal of RR: every division is guarded by
    [if len_processes > 0 else 0]. *)
Definition guarded_div (x : Q) (n : nat) : Q :=
  if Nat.ltb 0 n then x / inject_Z (Z.of_nat n) else 0.

Definition make_metrics_guarded (t : tally) (n : nat) : Metrics.t :=
  Metrics.mk (guarded_div (total_waiting_time t) n)
             (guarded_div (total_turnaround_time t) n)
             (guarded_div (total_response_time t) n)
             (all_waiting_time t) (all_turnaround_time t)
             (all_response_time t).

(** What a call of an engine leaves behind: its result, the store, and the
    contents of the list object it was given. *)
Record run := mkRun {
  result : outcome (list interval * Metrics.t);
  heap : store;
  processes_after : list addr
}.

Definition finish (t : tally) (n : nat) (st : store) (ps : list addr) : run :=
  match make_metrics t n with
  | Done m => mkRun (Done (gantt_data t, m)) st ps
  | Raise e => mkRun (Raise e) st ps
  | OutOfFuel => mkRun OutOfFuel st ps
  end.

(** ** Python built-ins used by the engines *)

Definition Qlt_bool (x y : Q) : bool := negb (Qle_bool y x).

(** [min(l, key=...)] on a non-empty list [x :: l]: the first element whose
    key is minimal. *)
Fixpoint min_from {K : Type} (ltb : K -> K -> bool) (key : addr -> K)
         (best : addr) (l : list addr) : addr :=
  match l with
  | [] => best
  | x :: l' => min_from ltb key (if ltb (key x) (key best) then x else best) l'
  end.

(** [max(l, key=...)] on a non-empty list: the first element whose key is
    maximal. *)
Fixpoint max_from {K : Type} (ltb : K -> K -> bool) (key : addr -> K)
         (best : addr) (l : list addr) : addr :=
  match l with
  | [] => best
  | x :: l' => max_from ltb key (if ltb (key best) (key x) then x else best) l'
  end.

(** [l.remove(a)]: the first occurrence goes.  The engines only remove the
    element [min]/[max] has just returned, which is the first element of
    the list equal to it, so comparing identities is exact. *)
Fixpoint remove_first (a : addr) (l : list addr) : list addr :=
  match l with
  | [] => []
  | x :: l' => if Nat.eqb x a then l' else x :: remove_first a l'
  end.

(** [l.sort(key=lambda x: x['at'])]: Python's sort is stable, and a stable
    sort has one result; insertion sort computes it. *)
Fixpoint insert_by_at (st : store) (a : addr) (l : list addr) : list addr :=
  match l with
  | [] => [a]
  | x :: l' =>
      if Z.leb (at_ (st a)) (at_ (st x)) then a :: l
      else x :: insert_by_at st a l'
  end.

Fixpoint sort_by_at (st : store) (l : list addr) : list addr :=
  match l with
  | [] => []
  | a :: l' => insert_by_at st a (sort_by_at st l')
  end.

(** ** [while] loops *)

(** One pass through a [while] statement: the test fails ([Break]), the body
    runs to its end or to a [continue] ([Continue]), or it raises
    ([Fail]).  Each carries the values of the variables at that point. *)
Inductive step_result (St : Type) : Type :=
| Continue (s : St)
| Break (s : St)
| Fail (e : exn) (s : St).
Arguments Continue {St} s.
Arguments Break {St} s.
Arguments Fail {St} e s.

Inductive status := Finished | Raised (e : exn) | NoFuel.

(** At most [fuel] executions of the body. *)
Fixpoint iterate {St : Type} (step : St -> step_result St) (fuel : nat)
         (s : St) : status * St :=
  match step s with
  | Break s' => (Finished, s')
  | Fail e s' => (Raised e, s')
  | Continue s' =>
      match fuel with
      | O => (NoFuel, s)
      | S fuel' => iterate step fuel' s'
      end
  end.

(** ** FCFS *)

(** The statements shared, word for word, by the bodies of FCFS (lines
    487-509), SPN (546-565) and HRRN (604-625): set the response time on
    first dispatch, run the whole burst, write the metrics, charge the
    context switch. *)
Definition run_whole_burst (cs : Q) (st : store) (current_time : Q)
           (tl : tally) (a : addr) : store * Q * tally :=
  let st :=
    if Qeq_bool (response_time (st a)) (-1)
    then upd st a (set_response_time (current_time - inject_Z (at_ (st a))))
    else st in
  let start_time := current_time in
  let end_time := current_time + inject_Z (cbt (st a)) in
  let tl := add_interval (pid (st a), start_time, end_time) tl in
  let st := upd st a (set_waiting_time (start_time - inject_Z (at_ (st a)))) in
  let st := upd st a (set_turnaround_time (end_time - inject_Z (at_ (st a)))) in
  let tl := record_metrics (st a) tl in
  (st, end_time + cs, tl).

Definition fcfs_body (cs : Q) (s : store * Q * tally) (a : addr)
  : store * Q * tally :=
  let '(st, current_time, tl) := s in
  let current_time :=
    if Qlt_bool current_time (inject_Z (at_ (st a)))
    then inject_Z (at_ (st a)) else current_time in
  run_whole_burst cs st current_time tl a.

Definition fcfs_scheduling (st : store) (processes : list addr)
           (time_Context_switching : Q) : run :=
  let processes := sort_by_at st processes in
  let '(st, _, tl) :=
    fold_left (fcfs_body time_Context_switching) processes (st, 0, tally0) in
  finish tl (length processes) st processes.

(** ** SPN *)

(** [[p for p in processes if p['at'] <= current_time]] *)
Definition eligible_at (st : store) (current_time : Q) (processes : list addr)
  : list addr :=
  filter (fun p => Qle_bool (inject_Z (at_ (st p))) current_time) processes.

(** Line 543: [min(eligible, key=lambda x: x['cbt'])] on the non-empty list
    [e :: es]. *)
Definition spn_select (st : store) (e : addr) (es : list addr) : addr :=
  min_from Z.ltb (fun x => cbt (st x)) e es.

(** The variables of the loop: the dicts, [processes], [current_time] and
    the accumulators. *)
Definition np_state : Type := store * list addr * Q * tally.

(** Lines 535-565. *)
Definition spn_step (cs : Q) (s : np_state) : step_result np_state :=
  let '(st, processes, current_time, tl) := s in
  match processes with
  | [] => Break s
  | _ :: _ =>
      match eligible_at st current_time processes with
      | [] => Continue (st, processes, current_time + 1, tl)
      | e :: es =>
          let selected := spn_select st e es in
          let processes := remove_first selected processes in
          let '(st, current_time, tl) :=
            run_whole_burst cs st current_time tl selected in
          Continue (st, processes, current_time, tl)
      end
  end.

Definition spn_scheduling (fuel : nat) (st : store) (processes : list addr)
           (time_Context_switching : Q) : run :=
  let original_processes := processes in
  match iterate (spn_step time_Context_switching) fuel
                (st, processes, 0, tally0) with
  | (Finished, (st, ps, _, tl)) => finish tl (length original_processes) st ps
  | (Raised e, (st, ps, _, _)) => mkRun (Raise e) st ps
  | (NoFuel, (st, ps, _, _)) => mkRun OutOfFuel st ps
  end.

(** ** HRRN *)

(** Lines 595-598: the [for p in eligible] loop that stores the response
    ratio in each eligible dict; the true division raises on a zero burst.
    The result is the exception raised, if any, and the store. *)
Fixpoint hrrn_ratios (st : store) (current_time : Q) (eligible : list addr)
  : option exn * store :=
  match eligible with
  | [] => (None, st)
  | p :: rest =>
      let waiting := current_time - inject_Z (at_ (st p)) in
      if Z.eqb (cbt (st p)) 0 then (Some ZeroDivisionError, st)
      else
        let ratio := (waiting + inject_Z (cbt (st p))) / inject_Z (cbt (st p)) in
        hrrn_ratios (upd st p (set_response_ratio ratio)) current_time rest
  end.

(** [x['response_ratio']]; the key is present on every eligible dict once
    [hrrn_ratios] has run, which is the only place it is read. *)
Definition ratio_key (st : store) (x : addr) : Q :=
  match response_ratio (st x) with
  | Some r => r
  | None => 0
  end.

(** Line 601: [max(eligible, key=lambda x: x['response_ratio'])] on the
    non-empty list [e :: es]. *)
Definition hrrn_select (st : store) (e : addr) (es : list addr) : addr :=
  max_from Qlt_bool (ratio_key st) e es.

(** Lines 588-625. *)
Definition hrrn_step (cs : Q) (s : np_state) : step_result np_state :=
  let '(st, processes, current_time, tl) := s in
  match processes with
  | [] => Break s
  | _ :: _ =>
      match eligible_at st current_time processes with
      | [] => Continue (st, processes, current_time + 1, tl)
      | e :: es =>
          match hrrn_ratios st current_time (e :: es) with
          | (None, st) =>
              let selected := hrrn_select st e es in
              let processes := remove_first selected processes in
              let '(st, current_time, tl) :=
                run_whole_burst cs st current_time tl selected in
              Continue (st, processes, current_time, tl)
          | (Some err, st) => Fail err (st, processes, current_time, tl)
          end
      end
  end.

Definition hrrn_scheduling (fuel : nat) (st : store) (processes : list addr)
           (time_Context_switching : Q) : run :=
  let len_processes := length processes in
  match iterate (hrrn_step time_Context_switching) fuel
                (st, processes, 0, tally0) with
  | (Finished, (st, ps, _, tl)) => finish tl len_processes st ps
  | (Raised e, (st, ps, _, _)) => mkRun (Raise e) st ps
  | (NoFuel, (st, ps, _, _)) => mkRun OutOfFuel st ps
  end.

(** ** RR *)

(** Lines 684-685: [while processes and processes[0]['at'] <= current_time:
    process_queue.append(processes.pop(0))]; the result is what was moved
    and what stays. *)
Fixpoint take_arrived (st : store) (current_time : Q) (processes : list addr)
  : list addr * list addr :=
  match processes with
  | [] => ([], [])
  | p :: rest =>
      if Qle_bool (inject_Z (at_ (st p))) current_time
      then let '(moved, kept) := take_arrived st current_time rest in
           (p :: moved, kept)
      else ([], processes)
  end.

(** The variables of the loop: the dicts, [process_queue], [processes] (the
    pending list), [current_time] and the accumulators. *)
Definition rr_state : Type := store * list addr * list addr * Q * tally.

(** Lines 668-701: one slice of [current_process], already popped from the
    queue. *)
Definition rr_slice (cs : Q) (time_quantum : Z) (st : store)
           (current_process : addr) (process_queue processes : list addr)
           (current_time : Q) (tl : tally) : rr_state :=
  let st :=
    if Qeq_bool (response_time (st current_process)) (-1)
    then upd st current_process
             (set_response_time
                (current_time - inject_Z (at_ (st current_process))))
    else st in
  let execution_time :=
    Z.min time_quantum (remaining_time (st current_process)) in
  let start_time := current_time in
  let end_time := current_time + inject_Z execution_time in
  let tl := add_interval (pid (st current_process), start_time, end_time) tl in
  let st :=
    upd st current_process
        (set_remaining_time
           (remaining_time (st current_process) - execution_time)%Z) in
  let current_time := end_time + cs in
  let '(moved, processes) := take_arrived st current_time processes in
  let process_queue := process_queue ++ moved in
  if Z.ltb 0 (remaining_time (st current_process))
  then (st, process_queue ++ [current_process], processes, current_time, tl)
  else
    let st :=
      upd st current_process
          (set_turnaround_time
             (current_time - inject_Z (at_ (st current_process)))) in
    let st :=
      upd st current_process
          (set_waiting_time
             (turnaround_time (st current_process)
              - inject_Z (cbt (st current_process)))) in
    let tl := record_metrics (st current_process) tl in
    (st, process_queue, processes, current_time, tl).

(** Lines 660-701.  When the queue is empty the clock jumps to
    [processes[0]['at']] and that process is appended and popped at once. *)
Definition rr_step (cs : Q) (time_quantum : Z) (s : rr_state)
  : step_result rr_state :=
  let '(st, process_queue, processes, current_time, tl) := s in
  match process_queue, processes with
  | [], [] => Break s
  | [], p :: rest =>
      Continue (rr_slice cs time_quantum st p [] rest
                         (inject_Z (at_ (st p))) tl)
  | current_process :: queue, _ =>
      Continue (rr_slice cs time_quantum st current_process queue processes
                         current_time tl)
  end.

(** The [setdefault] calls of lines 652-654 write nothing: both keys are
    present in every process dict.  The comprehension of line 658 rebinds
    the local name, so the caller's list object keeps its contents. *)
Definition rr_scheduling (fuel : nat) (st : store) (processes : list addr)
           (time_Context_switching : Q) (time_quantum : Z) : run :=
  if Z.leb time_quantum 0 then mkRun (Raise ValueError) st processes
  else
    let len_processes := length processes in
    let process_queue := filter (fun p => Z.leb (at_ (st p)) 0) processes in
    let pending := filter (fun p => Z.ltb 0 (at_ (st p))) processes in
    match iterate (rr_step time_Context_switching time_quantum) fuel
                  (st, process_queue, pending, 0, tally0) with
    | (Finished, (st, _, _, _, tl)) =>
        mkRun (Done (gantt_data tl, make_metrics_guarded tl len_processes))
              st processes
    | (Raised e, (st, _, _, _, _)) => mkRun (Raise e) st processes
    | (NoFuel, (st, _, _, _, _)) => mkRun OutOfFuel st processes
    end.

(** ** SRTF *)

(** [min(p['at'] for p in processes)] on the non-empty list [p :: rest]. *)
Definition min_at (st : store) (p : addr) (rest : list addr) : Z :=
  fold_left (fun m x => Z.min m (at_ (st x))) rest (at_ (st p)).

(** The variables of the loop: the dicts, [processes], [completed],
    [current_time] and the accumulators. *)
Definition srtf_state : Type := store * list addr * list addr * Q * tally.

(** Lines 737-768: one slice of [selected]. *)
Definition srtf_slice (cs : Q) (time_quantum : Z) (st : store)
           (selected : addr) (processes completed : list addr)
           (current_time : Q) (tl : tally) : srtf_state :=
  let st :=
    if Qeq_bool (response_time (st selected)) (-1)
    then upd st selected
             (set_response_time (current_time - inject_Z (at_ (st selected))))
    else st in
  let execution_time := Z.min time_quantum (remaining_time (st selected)) in
  let start_time := current_time in
  let end_time := current_time + inject_Z execution_time in
  let tl := add_interval (pid (st selected), start_time, end_time) tl in
  let st :=
    upd st selected
        (set_remaining_time (remaining_time (st selected) - execution_time)%Z) in
  let current_time := end_time + cs in
  if Z.eqb (remaining_time (st selected)) 0
  then
    let st :=
      upd st selected
          (set_turnaround_time (current_time - inject_Z (at_ (st selected)))) in
    let st :=
      upd st selected
          (set_waiting_time
             (turnaround_time (st selected) - inject_Z (cbt (st selected)))) in
    let tl := record_metrics (st selected) tl in
    (st, remove_first selected processes, completed ++ [selected],
     current_time, tl)
  else (st, processes, completed, current_time, tl).

(** Line 735: [min(eligible, key=lambda x: x['remaining_time'])]. *)
Definition srtf_select (st : store) (e : addr) (es : list addr) : addr :=
  min_from Z.ltb (fun x => remaining_time (st x)) e es.

(** Lines 726-768.  [min] of an empty generator raises [ValueError]. *)
Definition srtf_step (cs : Q) (time_quantum : Z) (s : srtf_state)
  : step_result srtf_state :=
  let '(st, processes, completed, current_time, tl) := s in
  if match processes with [] => false | _ :: _ => true end
     || existsb (fun p => Z.ltb 0 (remaining_time (st p))) completed
  then
    match eligible_at st current_time processes with
    | [] =>
        match processes with
        | [] => Fail ValueError s
        | p :: rest =>
            Continue (st, processes, completed, inject_Z (min_at st p rest), tl)
        end
    | e :: es =>
        Continue (srtf_slice cs time_quantum st (srtf_select st e es)
                             processes completed current_time tl)
    end
  else Break s.

Definition srtf_scheduling (fuel : nat) (st : store) (processes : list addr)
           (time_Context_switching : Q) (time_quantum : Z) : run :=
  let len_processes := length processes in
  match iterate (srtf_step time_Context_switching time_quantum) fuel
                (st, processes, [], 0, tally0) with
  | (Finished, (st, ps, _, _, tl)) => finish tl len_processes st ps
  | (Raised e, (st, ps, _, _, _)) => mkRun (Raise e) st ps
  | (NoFuel, (st, ps, _, _, _)) => mkRun OutOfFuel st ps
  end.

(** ** The loop of [simulate_all_algorithms] *)

Inductive algorithm := FCFS | SPN | HRRN | RR | SRTF.

(** [self.algorithms] *)
Definition algorithms : list algorithm := [FCFS; SPN; HRRN; RR; SRTF].

Fixpoint memo_find (a : addr) (memo : list (addr * addr)) : option addr :=
  match memo with
  | [] => None
  | (x, y) :: memo' => if Nat.eqb x a then Some y else memo_find a memo'
  end.

(** [copy.deepcopy] of a list of process dicts: a new list object whose
    elements are new dicts with the same items, allocated from [next] on;
    the memo keeps an object that occurs twice shared in the copy. *)
Fixpoint deepcopy (st : store) (next : addr) (memo : list (addr * addr))
         (l : list addr) : store * addr * list addr :=
  match l with
  | [] => (st, next, [])
  | a :: l' =>
      match memo_find a memo with
      | Some b =>
          let '(st', next', r) := deepcopy st next memo l' in
          (st', next', b :: r)
      | None =>
          let st1 : store := fun x => if Nat.eqb x next then st a else st x in
          let '(st', next', r) :=
            deepcopy st1 (S next) ((a, next) :: memo) l' in
          (st', next', next :: r)
      end
  end.

(** Lines 302-311: the dispatch on the algorithm name. *)
Definition run_engine (fuel : nat) (alg : algorithm) (st : store)
           (algo_processes : list addr) (cs : Q) (time_quantum : Z) : run :=
  match alg with
  | FCFS => fcfs_scheduling st algo_processes cs
  | SPN => spn_scheduling fuel st algo_processes cs
  | HRRN => hrrn_scheduling fuel st algo_processes cs
  | RR => rr_scheduling fuel st algo_processes cs time_quantum
  | SRTF => srtf_scheduling fuel st algo_processes cs time_quantum
  end.

Definition results_t : Type := list (algorithm * (list interval * Metrics.t)).

(** Lines 297-317: the [for] loop over [self.algorithms]; plotting is left
    out.  An exception raised by an engine leaves the loop. *)
Fixpoint simulate_loop (fuel : nat) (algs : list algorithm)
         (self_processes : list addr) (st : store) (next : addr)
         (cs : Q) (time_quantum : Z) (results : results_t)
  : outcome results_t * store * addr :=
  match algs with
  | [] => (Done results, st, next)
  | alg :: algs' =>
      let '(st, next, algo_processes) := deepcopy st next [] self_processes in
      let r := run_engine fuel alg st algo_processes cs time_quantum in
      match result r with
      | Done gm =>
          simulate_loop fuel algs' self_processes (heap r) next cs
                        time_quantum (results ++ [(alg, gm)])
      | Raise e => (Raise e, heap r, next)
      | OutOfFuel => (OutOfFuel, heap r, next)
      end
  end.

(** Lines 274-317, with the quantum and the context switch already parsed:
    nothing is run on an empty process list. *)
Definition simulate_all_algorithms (fuel : nat) (self_processes : list addr)
           (st : store) (next : addr) (cs : Q) (time_quantum : Z)
  : outcome results_t * store * addr :=
  match self_processes with
  | [] => (Done [], st, next)
  | _ :: _ =>
      simulate_loop fuel algorithms self_processes st next cs time_quantum []
  end.

(** ** Stores for concrete runs *)

(** The store whose cell [i] holds the [i]-th dict of [l]. *)
Definition store_of (l : list process) : store :=
  fun a => nth a l (new_process EmptyString 0 0).

(** Two equal bursts, the one that arrived later standing first. *)
Definition spn_ties : store :=
  store_of [new_process "A" 5 0; new_process "B" 1 2; new_process "C" 1 1].

(** Two processes with the same response ratio at time 0, the longer one
    standing first. *)
Definition hrrn_ties : store :=
  store_of [new_process "P1" 4 0; new_process "P2" 2 0].

(** A list that is not in arrival order: P3 arrives long before P2. *)
Definition rr_unsorted : store :=
  store_of [new_process "P1" 10 0; new_process "P2" 1 100;
            new_process "P3" 1 1].

(** One process, burst 1, arrival 0. *)
Definition single : store := store_of [new_process "P1" 1 0].

(** The scenario of the specification: P1(0,5), P2(1,3), P3(2,8). *)
Definition scenario : store :=
  store_of [new_process "P1" 5 0; new_process "P2" 3 1; new_process "P3" 8 2].

(** ** Vocabulary of the properties *)

(** *** Valid input, sums and means *)

(** A process as [add_process] accepts and creates it. *)
Definition valid_process (p : process) : Prop :=
  (0 < cbt p)%Z /\ (0 <= at_ p)%Z /\ remaining_time p = cbt p.

(** The precondition of an engine: a non-empty list of valid processes and
    a non-negative context switch. *)
Definition valid_input (st : store) (processes : list addr) (cs : Q) : Prop :=
  processes <> [] /\ 0 <= cs /\
  forall a, In a processes -> valid_process (st a).

(** The precondition "unique ids". *)
Definition unique_ids (st : store) (ps : list addr) : Prop :=
  NoDup (map (fun x => pid (st x)) ps).

Fixpoint sumQ (l : list Q) : Q :=
  match l with
  | [] => 0
  | x :: l' => x + sumQ l'
  end.

Definition mean (l : list Q) : Q := sumQ l / inject_Z (Z.of_nat (length l)).


(** The state a [step_result] carries. *)
Definition state_of {St : Type} (r : step_result St) : St :=
  match r with
  | Continue s => s
  | Break s => s
  | Fail _ s => s
  end.

(** *** The claims as the specification words them *)

(** C1 as the specification states it: each average is the mean of the
    list returned under the same name. *)
Definition averages_are_means (m : Metrics.t) : Prop :=
  Metrics.avg_waiting_time m == mean (Metrics.all_waiting_time m) /\
  Metrics.avg_turnaround_time m == mean (Metrics.all_turnaround_time m) /\
  Metrics.avg_response_time m == mean (Metrics.all_response_time m).

(** The order the specification gives SPN: smaller burst first, the
    earlier arrival on equal bursts. *)
Definition spn_claimed_order (p q : process) : Prop :=
  (cbt p < cbt q)%Z \/ (cbt p = cbt q /\ (at_ p <= at_ q)%Z).

(** The choice of SPN at a decision point, as the specification words it:
    the selected process comes first in [spn_claimed_order] among the
    eligible ones. *)
Definition spn_claimed_choice (st : store) (t : Q) (ps : list addr) : Prop :=
  forall e es,
    eligible_at st t ps = e :: es ->
    forall x, In x (e :: es) ->
              spn_claimed_order (st (spn_select st e es)) (st x).




(** A list in arrival order. *)
Fixpoint sorted_at (st : store) (l : list addr) : Prop :=
  match l with
  | [] => True
  | a :: l' =>
      (forall x, In x l' -> (at_ (st a) <= at_ (st x))%Z) /\ sorted_at st l'
  end.

(** The ready queue after a slice, as the specification words it: the old
    queue, then every pending process that has arrived by [clock], in
    arrival order, then the process just run if it has work left. *)
Definition rr_claimed_queue (st : store) (queue pending : list addr)
           (clock : Q) (current : addr) (remaining : Z) : list addr :=
  queue ++ sort_by_at st (eligible_at st clock pending)
        ++ (if Z.ltb 0 remaining then [current] else []).



(** *** What a run guarantees *)

(** The fields no engine writes. *)
Definition same_static (p q : process) : Prop :=
  pid p = pid q /\ cbt p = cbt q /\ at_ p = at_ q.

(** Every field but ['response_ratio']. *)
Definition same_but_ratio (p q : process) : Prop :=
  pid p = pid q /\ cbt p = cbt q /\ at_ p = at_ q /\
  remaining_time p = remaining_time q /\ waiting_time p = waiting_time q /\
  turnaround_time p = turnaround_time q /\ response_time p = response_time q.

(** The metric identity of a finished process. *)
Definition metrics_consistent (p : process) : Prop :=
  turnaround_time p - waiting_time p == inject_Z (cbt p).

(** What the engines compute: the waiting list matches its average, the
    list named turnaround holds the response times and the list named
    response holds the turnaround times. *)
Definition averages_as_computed (m : Metrics.t) : Prop :=
  Metrics.avg_waiting_time m == mean (Metrics.all_waiting_time m) /\
  Metrics.avg_turnaround_time m == mean (Metrics.all_response_time m) /\
  Metrics.avg_response_time m == mean (Metrics.all_turnaround_time m).


(** A run touches no dict outside the list it was given. *)
Definition run_frame (st0 : store) (ps0 : list addr) (r : run) : Prop :=
  forall x, ~ In x ps0 -> heap r x = st0 x.



(** *** Invariants of the loops *)

(** What the accumulators hold: each total is the sum of a list, and the
    three lists have one entry per finished process. *)
Definition tally_ok (tl : tally) : Prop :=
  total_waiting_time tl == sumQ (all_waiting_time tl) /\
  total_turnaround_time tl == sumQ (all_response_time tl) /\
  total_response_time tl == sumQ (all_turnaround_time tl) /\
  length (all_turnaround_time tl) = length (all_waiting_time tl) /\
  length (all_response_time tl) = length (all_waiting_time tl).

(** The invariant of the FCFS loop after the processes [seen]. *)
Definition fcfs_inv (st0 : store) (seen : list addr) (s : store * Q * tally)
  : Prop :=
  let '(st, _, tl) := s in
  (forall x, same_static (st0 x) (st x)) /\
  (forall x, In x seen -> metrics_consistent (st x)) /\
  (forall x, ~ In x seen -> st x = st0 x) /\
  tally_ok tl /\
  length (all_waiting_time tl) = length seen.


(** What a loop may touch: only dicts of the list it was given. *)
Definition np_frame (st0 : store) (ps0 : list addr) (s : np_state) : Prop :=
  let '(st, ps, _, _) := s in
  incl ps ps0 /\ forall x, ~ In x ps0 -> st x = st0 x.


Definition rr_frame (st0 : store) (ps0 : list addr) (s : rr_state) : Prop :=
  let '(st, queue, pending, _, _) := s in
  incl (queue ++ pending) ps0 /\ forall x, ~ In x ps0 -> st x = st0 x.


Definition srtf_frame (st0 : store) (ps0 : list addr) (s : srtf_state) : Prop :=
  let '(st, ps, _, _, _) := s in
  incl ps ps0 /\ forall x, ~ In x ps0 -> st x = st0 x.

(** The states of SRTF in which every waiting process has work left. *)
Definition srtf_busy (s : srtf_state) : Prop :=
  let '(st, ps, _, _, _) := s in
  ps <> [] /\ forall x, In x ps -> (0 < remaining_time (st x))%Z.







(** *** Bounds on the number of passes *)







(** *** The timeline of a run *)

Definition pid_of (i : interval) : string := fst (fst i).
Definition end_of (i : interval) : Q := snd i.







(** No process of the list has been dispatched before: ['response_time']
    holds the -1 that [add_process] writes. *)
Definition fresh_input (st : store) (ps : list addr) : Prop :=
  forall x, In x ps -> response_time (st x) == -1.















(** *** Plotting and animation *)




(** [max(l, default=d)] on numbers. *)
Definition max_default (l : list Q) (d : Q) : Q :=
  match l with
  | [] => d
  | x :: l' => fold_left (fun m y => if Qlt_bool m y then y else m) l' x
  end.

(** Lines 794-797 of [animate_scheduling], on the Gantt data of the
    algorithms in the order of [self.algorithms]. *)
Definition max_time (charts : list (list interval)) : Q :=
  max_default (map (fun g => max_default (map end_of g) 0) charts) 0.





(** ** The process list of the window *)

(** [str(n)] for a natural number. *)
Definition str (n : nat) : string := NilEmpty.string_of_uint (Nat.to_uint n).

(** A cell of the process table as [Treeview.item(...)['values']] hands it
    back: a [str] or a number ([int] or [float]). *)
Inductive cell := CellStr (s : string) | CellNumber (x : Q).

(** [p['pid'] == v] for a process dict, whose ['pid'] is always a [str]: a
    [str] is never equal to a number. *)
Definition pid_is (v : cell) (p : process) : bool :=
  match v with
  | CellStr s => String.eqb (pid p) s
  | CellNumber _ => false
  end.

(** The message boxes of the commands: the [ValueError] caught by
    [add_process], "already exists", "Select a process", "Invalid input",
    "Please add processes first", "Invalid time quantum", "Invalid time
    Context switching" and "Run simulation first". *)
Inductive alert :=
| ShowValueError
| ShowDuplicate (pid : string)
| ShowSelect
| ShowInvalidInput
| ShowAddFirst
| ShowInvalidQuantum
| ShowInvalidSwitch
| ShowRunFirst.

(** Lines 122-154.  The arguments are the text of the first entry and what
    [int(...)] makes of the other two, [None] when it raises [ValueError];
    the result is [self.processes] and the message box shown, if any. *)
Definition add_process (pid_text : string) (cbt_entry at_entry : option Z)
           (processes : list process) : list process * option alert :=
  match cbt_entry, at_entry with
  | Some c, Some a =>
      if Z.leb c 0 || Z.ltb a 0 then (processes, Some ShowValueError)
      else if existsb (fun p => String.eqb (pid p) pid_text) processes
           then (processes, Some (ShowDuplicate pid_text))
           else (processes ++ [new_process pid_text c a], None)
  | _, _ => (processes, Some ShowValueError)
  end.

(** Lines 156-159. *)
Definition clear_processes (processes : list process) : list process := [].

(** Lines 161-177, with the two numbers [random.randint] returns. *)
Definition add_one_random (c a : Z) (processes : list process)
  : list process :=
  let num := (length processes + 1)%nat in
  processes ++ [new_process ("random" ++ str num) c a].

(** The [for] loop of lines 184-200 from [i] on, with the pairs of numbers
    [random.randint] returns, one pair per process. *)
Fixpoint generate_from (i : nat) (draws : list (Z * Z)) : list process :=
  match draws with
  | [] => []
  | (c, a) :: draws' =>
      new_process ("random" ++ str (i + 1)) c a :: generate_from (S i) draws'
  end.

(** Lines 179-200: [num_processes] is the length of [draws]. *)
Definition generate_random_processes (draws : list (Z * Z))
           (processes : list process) : list process :=
  clear_processes processes ++ generate_from 0 draws.

(** Lines 242-248: the first dict whose id is [v] gets the new id, burst and
    arrival, and a full ['remaining_time']; the loop stops there. *)
Fixpoint update_first (v : cell) (new_pid : string) (new_cbt new_at : Z)
         (processes : list process) : list process :=
  match processes with
  | [] => []
  | p :: rest =>
      if pid_is v p
      then mkProcess new_pid new_cbt new_at new_cbt (waiting_time p)
                     (turnaround_time p) (response_time p) (response_ratio p)
           :: rest
      else p :: update_first v new_pid new_cbt new_at rest
  end.

(** Lines 235-254, for the row whose id cell is [v]. *)
Definition save_changes (v : cell) (new_pid : string)
           (cbt_entry at_entry : option Z) (processes : list process)
  : list process * option alert :=
  match cbt_entry, at_entry with
  | Some c, Some a => (update_first v new_pid c a processes, None)
  | _, _ => (processes, Some ShowInvalidInput)
  end.

(** Lines 209-256, the dialog closed with Save: [selected] is the id cell of
    the selected row, if a row is selected. *)
Definition edit_process (selected : option cell) (new_pid : string)
           (cbt_entry at_entry : option Z) (processes : list process)
  : list process * option alert :=
  match selected with
  | None => (processes, Some ShowSelect)
  | Some v => save_changes v new_pid cbt_entry at_entry processes
  end.

(** Lines 258-272. *)
Definition delete_process (selected : option cell) (processes : list process)
  : list process * option alert :=
  match selected with
  | None => (processes, Some ShowSelect)
  | Some v => (filter (fun p => negb (pid_is v p)) processes, None)
  end.

(** The engines see [self.processes] as a list of dict objects: the dicts
    of [l] at the addresses 0, 1, ... *)
Definition objects_of (l : list process) : list addr := seq 0 (length l).

(** A list as [add_process] builds it: distinct ids, positive bursts,
    arrivals that are not negative, and every other key as in the dict
    literal. *)
Definition well_formed (l : list process) : Prop :=
  NoDup (map pid l) /\
  forall p, In p l ->
            (0 < cbt p)%Z /\ (0 <= at_ p)%Z /\
            p = new_process (pid p) (cbt p) (at_ p).

(** The numbers [random.randint(1, 20)] and [random.randint(0, 10)] can
    return. *)
Definition drawn (d : Z * Z) : Prop :=
  (1 <= fst d <= 20)%Z /\ (0 <= snd d <= 10)%Z.

(** *** The window *)

(** The attributes of the window object the commands read and write:
    [self.processes], and [self.last_simulation_results], which
    [export_results] tests with [hasattr] ([None]: the attribute does not
    exist). *)
Module Window.
Record t := mk {
  processes : list process;
  last_simulation_results : option (list (string * Metrics.t))
}.
End Window.

(** [__init__], lines 27-28: an empty list, and no attribute
    [last_simulation_results]. *)
Definition new_window : Window.t := Window.mk [] None.

(** Lines 274-329 as a command of the window: the guards on the list and
    on the two entries, then the loop on deep copies; the window keeps
    what the loop leaves in the dicts of [self.processes]. *)
Definition simulate_command (fuel : nat) (quantum_entry : option Z)
           (switch_entry : option Q) (w : Window.t)
  : Window.t * option alert :=
  match Window.processes w with
  | [] => (w, Some ShowAddFirst)
  | _ :: _ =>
      match quantum_entry with
      | None => (w, Some ShowInvalidQuantum)
      | Some time_quantum =>
          match switch_entry with
          | None => (w, Some ShowInvalidSwitch)
          | Some cs =>
              let l := Window.processes w in
              let '(_, st, _) :=
                simulate_all_algorithms fuel (objects_of l) (store_of l)
                                        (length l) cs time_quantum in
              (Window.mk (map st (objects_of l))
                         (Window.last_simulation_results w), None)
          end
      end
  end.

(** Lines 377-415: the rows written to the file, or the message box.  The
    file dialog is left out. *)
Definition export_results (w : Window.t)
  : list (string * Q * Q * Q) + alert :=
  match Window.last_simulation_results w with
  | None => inr ShowRunFirst
  | Some results =>
      inl (map (fun r => (fst r, Metrics.avg_waiting_time (snd r),
                          Metrics.avg_turnaround_time (snd r),
                          Metrics.avg_response_time (snd r))) results)
  end.

(** What the user can do with the window. *)
Inductive action :=
| AddProcess (pid_text : string) (cbt_entry at_entry : option Z)
| ClearProcesses
| AddOneRandom (c a : Z)
| GenerateRandom (draws : list (Z * Z))
| EditProcess (selected : option cell) (new_pid : string)
              (cbt_entry at_entry : option Z)
| DeleteProcess (selected : option cell)
| SimulateAll (fuel : nat) (quantum_entry : option Z)
              (switch_entry : option Q)
| ExportResults.

Definition with_processes (w : Window.t) (l : list process) : Window.t :=
  Window.mk l (Window.last_simulation_results w).

Definition press (w : Window.t) (a : action) : Window.t :=
  let l := Window.processes w in
  match a with
  | AddProcess pid_text c a => with_processes w (fst (add_process pid_text c a l))
  | ClearProcesses => with_processes w (clear_processes l)
  | AddOneRandom c a => with_processes w (add_one_random c a l)
  | GenerateRandom draws => with_processes w (generate_random_processes draws l)
  | EditProcess selected new_pid c a =>
      with_processes w (fst (edit_process selected new_pid c a l))
  | DeleteProcess selected => with_processes w (fst (delete_process selected l))
  | SimulateAll fuel q cs => fst (simulate_command fuel q cs w)
  | ExportResults => w
  end.

(** The commands that validate what they store; the random numbers are in
    the ranges of [random.randint]. *)
Definition checked (a : action) : Prop :=
  match a with
  | AddProcess _ _ _ | ClearProcesses | DeleteProcess _ | SimulateAll _ _ _
  | ExportResults => True
  | GenerateRandom draws =>
      (5 <= length draws <= 10)%nat /\ Forall drawn draws
  | AddOneRandom _ _ | EditProcess _ _ _ _ => False
  end.

(** The [metrics] dict built from the accumulators [tl]: its averages are
    as the engines compute them and its lists are the lists of [tl]. *)
Definition metrics_of (tl : tally) (m : Metrics.t) : Prop :=
  averages_as_computed m /\
  Metrics.all_waiting_time m = all_waiting_time tl /\
  Metrics.all_turnaround_time m = all_turnaround_time tl /\
  Metrics.all_response_time m = all_response_time tl.



(** *** The colours of a chart *)







(** *** The controls of the animation *)

(** [current_time] and [is_running], the two Tk variables of
    [animate_scheduling]. *)
Module Timeline.
Record t := mk {
  current_time : Q;
  is_running : bool
}.
End Timeline.

(** [min(a, b)] on numbers: [a] unless [b] is smaller. *)
Definition py_min (a b : Q) : Q := if Qlt_bool b a then b else a.

(** Lines 842-844. *)
Definition pause_timeline (s : Timeline.t) : Timeline.t :=
  Timeline.mk (Timeline.current_time s) false.

(** Lines 846-858: one callback; the flag tells whether it has scheduled
    the next one with [after]. *)
Definition animate_timeline (max_time : Q) (s : Timeline.t)
  : Timeline.t * bool :=
  if Timeline.is_running s then
    let current_val := Timeline.current_time s in
    if Qlt_bool current_val max_time
    then (Timeline.mk (py_min (current_val + (1 # 2)) max_time) true, true)
    else (pause_timeline s, false)
  else (s, false).

(** The callbacks that follow one another, at most [ticks] of them. *)
Fixpoint animation (ticks : nat) (max_time : Q) (s : Timeline.t)
  : Timeline.t :=
  match ticks with
  | O => s
  | S n =>
      let '(s', again) := animate_timeline max_time s in
      if again then animation n max_time s' else s'
  end.

(** Lines 836-840: the call of [animate_timeline] at line 840, followed by
    the callbacks it schedules, at most [ticks] of them. *)
Definition start_timeline (ticks : nat) (max_time : Q) (s : Timeline.t)
  : Timeline.t :=
  if Timeline.is_running s then s
  else animation (S ticks) max_time
         (Timeline.mk (Timeline.current_time s) true).

(** Lines 860-864. *)
Definition reset_timeline (s : Timeline.t) : Timeline.t :=
  pause_timeline (Timeline.mk 0 (Timeline.is_running s)).

(** * Proofs *)

(** ** Loops *)

Section Iterate.
Context {St : Type} (step : St -> step_result St).

(** A property kept by every pass holds wherever the loop stops. *)
Lemma iterate_keeps (I : St -> Prop) :
  (forall s, I s -> I (state_of (step s))) ->
  forall fuel s, I s -> I (snd (iterate step fuel s)).
Proof.
  intros Hstep fuel; induction fuel as [|fuel IH]; intros s Hs; simpl;
    pose proof (Hstep s Hs) as H; destruct (step s); simpl in *; auto.
Qed.



(** A body that always continues under an invariant never lets the loop
    end. *)
Lemma iterate_diverges (I : St -> Prop) :
  (forall s, I s -> exists s', step s = Continue s' /\ I s') ->
  forall fuel s, I s -> fst (iterate step fuel s) = NoFuel.
Proof.
  intros Hstep fuel; induction fuel as [|fuel IH]; intros s Hs; simpl;
    destruct (Hstep s Hs) as (s' & -> & Hs'); [reflexivity|].
  apply IH, Hs'.
Qed.
End Iterate.

(** ** The store *)

(** Case analysis on every address comparison of the goal. *)
Ltac upd_cases :=
  unfold upd;
  repeat match goal with
         | |- context [Nat.eqb ?x ?a] => destruct (Nat.eqb_spec x a); subst
         end;
  simpl.

Lemma upd_same (st : store) (a : addr) (f : process -> process) :
  upd st a f a = f (st a).
Proof. unfold upd; now rewrite Nat.eqb_refl. Qed.

Lemma upd_other (st : store) (a x : addr) (f : process -> process) :
  x <> a -> upd st a f x = st x.
Proof. intros H; unfold upd; apply Nat.eqb_neq in H; now rewrite H. Qed.

Lemma same_static_refl (p : process) : same_static p p.
Proof. repeat split. Qed.

Lemma same_static_trans (p q r : process) :
  same_static p q -> same_static q r -> same_static p r.
Proof. unfold same_static; intuition congruence. Qed.

(** ** Running a whole burst (FCFS, SPN, HRRN) *)

Lemma run_whole_burst_spec cs st t tl a st' t' tl' :
  run_whole_burst cs st t tl a = (st', t', tl') ->
  (forall x, x <> a -> st' x = st x) /\
  (forall x, same_static (st x) (st' x)) /\
  (forall x, remaining_time (st' x) = remaining_time (st x)) /\
  waiting_time (st' a) = t - inject_Z (at_ (st a)) /\
  turnaround_time (st' a) = t + inject_Z (cbt (st a)) - inject_Z (at_ (st a)) /\
  t' = t + inject_Z (cbt (st a)) + cs /\
  tl' = record_metrics (st' a)
          (add_interval (pid (st a), t, t + inject_Z (cbt (st a))) tl).
Proof.
  unfold run_whole_burst; intros H; injection H as <- <- <-.
  destruct (Qeq_bool (response_time (st a)) (-1));
    (split; [intros x Hx; now rewrite !upd_other by exact Hx|]);
    (split; [intros x; unfold same_static; upd_cases; auto|]);
    (split; [intros x; upd_cases; auto|]);
    rewrite ?upd_same; simpl; auto.
Qed.

(** ** [min] and [max] with a key *)

Lemma Qlt_bool_iff (x y : Q) : Qlt_bool x y = true <-> x < y.
Proof.
  unfold Qlt_bool; rewrite negb_true_iff; split; intros H.
  - apply Qnot_le_lt; intros Hle; apply Qle_bool_iff in Hle; congruence.
  - destruct (Qle_bool y x) eqn:E; [|reflexivity].
    apply Qle_bool_iff in E; exfalso; apply (Qlt_not_le _ _ H E).
Qed.

Lemma Qlt_bool_false (x y : Q) : Qlt_bool x y = false -> y <= x.
Proof.
  unfold Qlt_bool; rewrite negb_false_iff; apply Qle_bool_iff.
Qed.

Section FirstMin.
Context {K : Type} (ltb : K -> K -> bool) (lt le : K -> K -> Prop).
Hypothesis ltb_lt : forall x y, ltb x y = true -> lt x y.
Hypothesis ltb_le : forall x y, ltb x y = false -> le y x.
Hypothesis lt_le_trans : forall x y z, lt x y -> le y z -> lt x z.
Hypothesis lt_le : forall x y, lt x y -> le x y.
Variable key : addr -> K.

(** The element returned splits the list: keys strictly larger before
    it, keys at least as large after it. *)
Lemma min_from_first (l : list addr) :
  forall best,
  exists pre post,
    best :: l = pre ++ min_from ltb key best l :: post /\
    (forall x, In x pre -> lt (key (min_from ltb key best l)) (key x)) /\
    (forall x, In x post -> le (key (min_from ltb key best l)) (key x)).
Proof.
  induction l as [|x l IH]; intros best; simpl.
  - exists [], []; simpl; intuition.
  - destruct (ltb (key x) (key best)) eqn:E.
    + destruct (IH x) as (pre & post & Heq & Hpre & Hpost).
      set (m := min_from ltb key x l) in *.
      exists (best :: pre), post; split; [simpl; now rewrite Heq|].
      split; [|exact Hpost].
      intros y [<-|Hy]; [|auto].
      apply ltb_lt in E.
      destruct pre as [|p pre]; simpl in Heq; injection Heq as Hx Hl.
      * now rewrite <- Hx.
      * subst p. eapply lt_le_trans; [apply Hpre; now left|].
        now apply lt_le.
    + destruct (IH best) as (pre & post & Heq & Hpre & Hpost).
      set (m := min_from ltb key best l) in *.
      apply ltb_le in E.
      destruct pre as [|p pre]; simpl in Heq; injection Heq as Hb Hl.
      * exists [], (x :: post); simpl; split; [now rewrite <- Hb, Hl|].
        split; [intuition|].
        intros y [<-|Hy]; [now rewrite <- Hb | auto].
      * subst p. exists (best :: x :: pre), post; simpl.
        split; [now rewrite Hl|]. split; [|exact Hpost].
        intros y [<-|[<-|Hy]].
        -- apply Hpre; now left.
        -- eapply lt_le_trans; [apply Hpre; now left | exact E].
        -- apply Hpre; now right.
Qed.

Lemma min_from_le (l : list addr) (best x : addr) :
  In x (best :: l) ->
  le (key (min_from ltb key best l)) (key x) \/ x = min_from ltb key best l.
Proof.
  destruct (min_from_first l best) as (pre & post & Heq & Hpre & Hpost).
  rewrite Heq at 1; intros H; apply in_app_or in H.
  destruct H as [H|[H|H]]; auto.
Qed.
End FirstMin.

Lemma min_from_mem {K : Type} (ltb : K -> K -> bool) (key : addr -> K)
      (l : list addr) :
  forall best, In (min_from ltb key best l) (best :: l).
Proof.
  induction l as [|x l IH]; intros best; simpl; [now left|].
  destruct (IH (if ltb (key x) (key best) then x else best)) as [H|H];
    [|now right; right].
  rewrite <- H. destruct (ltb (key x) (key best)); auto.
Qed.

Lemma max_from_min_from {K : Type} (ltb : K -> K -> bool) (key : addr -> K)
      (l : list addr) :
  forall best,
    max_from ltb key best l = min_from (fun a b => ltb b a) key best l.
Proof. induction l as [|x l IH]; intros best; simpl; [reflexivity|apply IH]. Qed.

Lemma max_from_mem {K : Type} (ltb : K -> K -> bool) (key : addr -> K)
      (l : list addr) (best : addr) :
  In (max_from ltb key best l) (best :: l).
Proof. rewrite max_from_min_from; apply min_from_mem. Qed.

(** ** SPN: the process dispatched *)

Lemma eligible_at_In st t ps x :
  In x (eligible_at st t ps) <-> In x ps /\ inject_Z (at_ (st x)) <= t.
Proof.
  unfold eligible_at; rewrite filter_In, Qle_bool_iff; reflexivity.
Qed.

Lemma Zltb_false_le (x y : Z) : Z.ltb x y = false -> (y <= x)%Z.
Proof. intros H; apply Z.ltb_ge; exact H. Qed.

Lemma Zltb_true_lt (x y : Z) : Z.ltb x y = true -> (x < y)%Z.
Proof. intros H; apply Z.ltb_lt; exact H. Qed.

(** C5, as the code has it: at a decision point with a non-empty eligible
    set, SPN dispatches an eligible process of smallest burst time, and
    among those of smallest burst time the one standing first in the
    working list (the input order); the arrival time plays no part in the
    choice. *)
Theorem spn_dispatches_first_shortest cs st ps t tl e es :
  eligible_at st t ps = e :: es ->
  let selected := spn_select st e es in
  (exists st' tl',
      spn_step cs (st, ps, t, tl)
      = Continue (st', remove_first selected ps,
                  t + inject_Z (cbt (st selected)) + cs, tl') /\
      gantt_data tl'
      = gantt_data tl
        ++ [(pid (st selected), t, t + inject_Z (cbt (st selected)))]) /\
  In selected ps /\ inject_Z (at_ (st selected)) <= t /\
  (forall x, In x ps -> inject_Z (at_ (st x)) <= t ->
             (cbt (st selected) <= cbt (st x))%Z) /\
  (exists pre post,
      e :: es = pre ++ selected :: post /\
      forall x, In x pre -> (cbt (st selected) < cbt (st x))%Z).
Proof.
  intros Hel selected.
  assert (Hin : In selected (e :: es)) by apply min_from_mem.
  rewrite <- Hel in Hin; apply eligible_at_In in Hin; destruct Hin as [Hin Hat].
  split.
  - unfold spn_step. destruct ps as [|p ps']; [destruct Hin|].
    rewrite Hel. fold selected.
    destruct (run_whole_burst cs st t tl selected) as [[st' t'] tl'] eqn:E.
    apply run_whole_burst_spec in E.
    destruct E as (_ & _ & _ & _ & _ & -> & ->).
    exists st', (record_metrics (st' selected)
                   (add_interval (pid (st selected), t,
                                  t + inject_Z (cbt (st selected))) tl)).
    split; reflexivity.
  - split; [exact Hin|]. split; [exact Hat|]. split.
    + intros x Hx Hxt.
      assert (Hx' : In x (e :: es))
        by (rewrite <- Hel; apply eligible_at_In; auto).
      destruct (min_from_le Z.ltb Z.lt Z.le Zltb_true_lt Zltb_false_le)
        with (key := fun x => cbt (st x)) (l := es) (best := e) (x := x)
        as [H|H]; try (intros; lia); auto.
      fold (spn_select st e es) in H; fold selected in H; subst x; lia.
    + destruct (min_from_first Z.ltb Z.lt Z.le Zltb_true_lt Zltb_false_le)
        with (key := fun x => cbt (st x)) (l := es) (best := e)
        as (pre & post & Heq & Hpre & _); try (intros; lia).
      exists pre, post; split; [exact Heq | exact Hpre].
Qed.

Lemma spn_dispatches_first_shortest_witness :
  eligible_at spn_ties 5 [1; 2]%nat = [1; 2]%nat /\
  In (spn_select spn_ties 1%nat [2%nat]) [1; 2]%nat.
Proof.
  split; [reflexivity|].
  destruct (spn_dispatches_first_shortest 0 spn_ties [1; 2]%nat 5 tally0
              1%nat [2%nat] eq_refl) as (_ & H & _).
  exact H.
Defined.

(** The run that reaches this decision point: A runs first, and at time 5
    B is dispatched before C although C arrived earlier. *)
Example spn_ties_run :
  match result (spn_scheduling 10 spn_ties [0; 1; 2]%nat 0) with
  | Done (gantt, _) => gantt = [("A"%string, 0, 5); ("B"%string, 5, 6);
                                 ("C"%string, 6, 7)]
  | _ => False
  end.
Proof. vm_compute. reflexivity. Qed.

(** C5 as stated fails: at time 5 processes B (arrival 2) and C (arrival 1)
    are eligible with the same burst time, and the code selects B. *)
Lemma spn_tie_break_counterexample :
  ~ spn_claimed_choice spn_ties 5 [1; 2]%nat.
Proof.
  intros H.
  specialize (H 1%nat [2%nat] eq_refl 2%nat (or_intror (or_introl eq_refl))).
  vm_compute in H.
  destruct H as [H|[_ H]]; [discriminate H | apply H; reflexivity].
Qed.

(** ** HRRN: the process dispatched *)

Lemma same_but_ratio_refl p : same_but_ratio p p.
Proof. repeat split. Qed.

Lemma same_but_ratio_trans p q r :
  same_but_ratio p q -> same_but_ratio q r -> same_but_ratio p r.
Proof. unfold same_but_ratio; intuition congruence. Qed.





(** The run on this input: P1 (burst 4) is dispatched at time 0 although P2
    has the same ratio and the smaller burst. *)
Example hrrn_ties_run :
  match result (hrrn_scheduling 10 hrrn_ties [0; 1]%nat 0) with
  | Done (gantt, _) => gantt = [("P1"%string, 0, 4); ("P2"%string, 4, 6)]
  | _ => False
  end.
Proof. vm_compute. reflexivity. Qed.


(** ** Lists and sums *)

Lemma remove_first_In a x l : In x (remove_first a l) -> In x l.
Proof.
  induction l as [|y l IH]; simpl; [tauto|].
  destruct (Nat.eqb_spec y a); simpl; intuition.
Qed.



Lemma sumQ_snoc (l : list Q) (x : Q) : sumQ (l ++ [x]) == sumQ l + x.
Proof.
  induction l as [|y l IH]; simpl; [ring|]. rewrite IH; ring.
Qed.


Lemma tally_ok_add_interval i tl : tally_ok tl -> tally_ok (add_interval i tl).
Proof. intros H; exact H. Qed.

Lemma tally_ok_record p tl : tally_ok tl -> tally_ok (record_metrics p tl).
Proof.
  intros (H1 & H2 & H3 & H4 & H5); unfold tally_ok; simpl.
  rewrite !sumQ_snoc, !length_app, H1, H2, H3, H4, H5.
  repeat split; reflexivity.
Qed.

Lemma record_metrics_length p tl :
  length (all_waiting_time (record_metrics p tl))
  = S (length (all_waiting_time tl)).
Proof. simpl; rewrite length_app; simpl; lia. Qed.

(** ** The non-preemptive loops: invariant *)




Lemma np_dispatch_frame cs st0 ps0 st st1 ps t tl a st' t' tl' :
  np_frame st0 ps0 (st, ps, t, tl) ->
  In a ps ->
  (forall x, ~ In x ps -> st1 x = st x) ->
  run_whole_burst cs st1 t tl a = (st', t', tl') ->
  np_frame st0 ps0 (st', remove_first a ps, t', tl').
Proof.
  intros (Hincl & Hfr) Ha H1 E.
  apply run_whole_burst_spec in E. destruct E as (Hoth & _).
  split.
  - intros x Hx; apply Hincl; eapply remove_first_In; eauto.
  - intros x Hx.
    assert (Hxp : ~ In x ps) by (intros H; apply Hx, Hincl, H).
    assert (Hxa : x <> a) by (intros ->; exact (Hxp Ha)).
    now rewrite (Hoth x Hxa), (H1 x Hxp), (Hfr x Hx).
Qed.








Lemma finish_ok tl n st ps :
  tally_ok tl -> length (all_waiting_time tl) = n -> n <> O ->
  exists m,
    finish tl n st ps = mkRun (Done (gantt_data tl, m)) st ps /\
    averages_as_computed m.
Proof.
  intros (H1 & H2 & H3 & H4 & H5) Hn Hnz.
  unfold finish, make_metrics, py_div.
  destruct n as [|n]; [congruence|].
  eexists; split; [reflexivity|].
  unfold averages_as_computed, mean; simpl Metrics.avg_waiting_time;
    simpl Metrics.avg_turnaround_time; simpl Metrics.avg_response_time;
    simpl Metrics.all_waiting_time; simpl Metrics.all_turnaround_time;
    simpl Metrics.all_response_time.
  rewrite H4, H5, Hn, H1, H2, H3. repeat split; reflexivity.
Qed.

(** ** SPN: total correctness *)

Lemma spn_step_cases cs st ps t tl :
  (ps = [] /\ spn_step cs (st, ps, t, tl) = Break (st, ps, t, tl)) \/
  (ps <> [] /\ eligible_at st t ps = [] /\
   spn_step cs (st, ps, t, tl) = Continue (st, ps, t + 1, tl)) \/
  (exists a st' t' tl',
      In a ps /\ run_whole_burst cs st t tl a = (st', t', tl') /\
      spn_step cs (st, ps, t, tl) = Continue (st', remove_first a ps, t', tl')).
Proof.
  unfold spn_step. destruct ps as [|p ps']; [left; auto|]. right.
  destruct (eligible_at st t (p :: ps')) as [|e es] eqn:Hel.
  - left; repeat split; congruence.
  - right.
    assert (Hin : In (spn_select st e es) (e :: es)) by apply min_from_mem.
    rewrite <- Hel in Hin; apply eligible_at_In in Hin.
    destruct (run_whole_burst cs st t tl (spn_select st e es))
      as [[st' t'] tl'] eqn:E.
    exists (spn_select st e es), st', t', tl'; tauto.
Qed.


Lemma spn_step_frame cs st0 ps0 s :
  np_frame st0 ps0 s -> np_frame st0 ps0 (state_of (spn_step cs s)).
Proof.
  destruct s as [[[st ps] t] tl]; intros Hinv.
  destruct (spn_step_cases cs st ps t tl)
    as [(_ & H)|[(_ & _ & H)|(a & st' & t' & tl' & Ha & E & H)]];
    rewrite H; simpl; try exact Hinv.
  eapply np_dispatch_frame; eauto.
Qed.







(** ** HRRN: total correctness *)

Lemma hrrn_ratios_any (el : list addr) (t : Q) :
  forall st,
    (forall x, same_but_ratio (st x) (snd (hrrn_ratios st t el) x)) /\
    (forall x, ~ In x el -> snd (hrrn_ratios st t el) x = st x).
Proof.
  induction el as [|p el IH]; intros st; simpl.
  - split; auto using same_but_ratio_refl.
  - destruct (Z.eqb (cbt (st p)) 0); simpl;
      [split; auto using same_but_ratio_refl|].
    set (st1 := upd st p _).
    assert (H1 : forall x, same_but_ratio (st x) (st1 x)).
    { intros x; unfold st1, same_but_ratio; upd_cases; repeat split. }
    destruct (IH st1) as (Hsame & Hframe). split.
    + intros x; eapply same_but_ratio_trans; eauto.
    + intros x Hx. rewrite Hframe by tauto.
      unfold st1; apply upd_other; intros ->; tauto.
Qed.

Lemma hrrn_step_cases cs st ps t tl :
  (ps = [] /\ hrrn_step cs (st, ps, t, tl) = Break (st, ps, t, tl)) \/
  (ps <> [] /\ eligible_at st t ps = [] /\
   hrrn_step cs (st, ps, t, tl) = Continue (st, ps, t + 1, tl)) \/
  (exists st1,
      (forall x, same_but_ratio (st x) (st1 x)) /\
      (forall x, ~ In x ps -> st1 x = st x) /\
      ((exists err,
           hrrn_ratios st t (eligible_at st t ps) = (Some err, st1) /\
           hrrn_step cs (st, ps, t, tl) = Fail err (st1, ps, t, tl)) \/
       (exists a st' t' tl',
           In a ps /\ run_whole_burst cs st1 t tl a = (st', t', tl') /\
           hrrn_step cs (st, ps, t, tl)
           = Continue (st', remove_first a ps, t', tl')))).
Proof.
  unfold hrrn_step. destruct ps as [|p ps']; [left; auto|]. right.
  destruct (eligible_at st t (p :: ps')) as [|e es] eqn:Hel.
  - left; repeat split; congruence.
  - right.
    destruct (hrrn_ratios_any (e :: es) t st) as (Hsame & Hframe).
    destruct (hrrn_ratios st t (e :: es)) as [[err|] st1] eqn:Hr;
      simpl snd in Hsame, Hframe; exists st1; (split; [exact Hsame|]);
      (split;
       [intros x Hx; apply Hframe; rewrite <- Hel;
        intros Hi; apply eligible_at_In in Hi; tauto|]).
    + left; exists err; auto.
    + right.
      assert (Hin : In (hrrn_select st1 e es) (e :: es))
        by apply max_from_mem.
      rewrite <- Hel in Hin; apply eligible_at_In in Hin.
      destruct (run_whole_burst cs st1 t tl (hrrn_select st1 e es))
        as [[st' t'] tl'] eqn:E.
      exists (hrrn_select st1 e es), st', t', tl'; tauto.
Qed.


Lemma hrrn_step_frame cs st0 ps0 s :
  np_frame st0 ps0 s -> np_frame st0 ps0 (state_of (hrrn_step cs s)).
Proof.
  destruct s as [[[st ps] t] tl]; intros Hinv.
  destruct (hrrn_step_cases cs st ps t tl)
    as [(_ & H)|[(_ & _ & H)|(st1 & _ & Hfr &
         [(err & _ & H)|(a & st' & t' & tl' & Ha & E & H)])]];
    rewrite H; simpl; try exact Hinv.
  - destruct Hinv as (Hincl & H0). split; [exact Hincl|].
    intros x Hx. rewrite Hfr; auto.
  - eapply np_dispatch_frame; eauto.
Qed.





(** ** FCFS *)

Lemma insert_by_at_In st a l x : In x (insert_by_at st a l) <-> x = a \/ In x l.
Proof.
  induction l as [|y l IH]; simpl; [intuition|].
  destruct (Z.leb (at_ (st a)) (at_ (st y))); simpl; [intuition|].
  rewrite IH; intuition.
Qed.

Lemma sort_by_at_In st l x : In x (sort_by_at st l) <-> In x l.
Proof.
  induction l as [|y l IH]; simpl; [tauto|].
  rewrite insert_by_at_In, IH; intuition.
Qed.

Lemma insert_by_at_length st a l : length (insert_by_at st a l) = S (length l).
Proof.
  induction l as [|y l IH]; simpl; [reflexivity|].
  destruct (Z.leb (at_ (st a)) (at_ (st y))); simpl; [reflexivity|].
  now rewrite IH.
Qed.

Lemma sort_by_at_length st l : length (sort_by_at st l) = length l.
Proof.
  induction l as [|y l IH]; simpl; [reflexivity|].
  now rewrite insert_by_at_length, IH.
Qed.

Lemma fcfs_body_inv cs st0 seen s a :
  fcfs_inv st0 seen s -> fcfs_inv st0 (seen ++ [a]) (fcfs_body cs s a).
Proof.
  destruct s as [[st t] tl]; intros (Hst & Hfin & Hfr & Htl & Hlen).
  unfold fcfs_body.
  set (t1 := if Qlt_bool t (inject_Z (at_ (st a))) then _ else _).
  destruct (run_whole_burst cs st t1 tl a) as [[st' t'] tl'] eqn:E.
  apply run_whole_burst_spec in E.
  destruct E as (Hoth & Hstat & _ & Hw & Hta & _ & ->).
  unfold fcfs_inv. split; [|split; [|split; [|split]]].
  - intros x; eapply same_static_trans; [apply Hst | apply Hstat].
  - intros x Hx. destruct (Nat.eq_dec x a) as [->|Hne].
    + unfold metrics_consistent. rewrite Hw, Hta.
      destruct (Hstat a) as (_ & <- & _). ring.
    + rewrite (Hoth x Hne). apply Hfin.
      apply in_app_or in Hx; destruct Hx as [Hx|[Hx|[]]]; congruence.
  - intros x Hx. rewrite Hoth, Hfr; auto.
    + intros H; apply Hx, in_or_app; now left.
    + intros ->; apply Hx, in_or_app; right; now left.
  - now apply tally_ok_record, tally_ok_add_interval.
  - rewrite record_metrics_length, length_app; simpl. simpl in Hlen. lia.
Qed.

Lemma fcfs_fold_inv cs st0 l :
  forall seen s,
    fcfs_inv st0 seen s ->
    fcfs_inv st0 (seen ++ l) (fold_left (fcfs_body cs) l s).
Proof.
  induction l as [|a l IH]; intros seen s Hs; simpl.
  - now rewrite app_nil_r.
  - replace (seen ++ a :: l) with ((seen ++ [a]) ++ l)
      by (now rewrite <- app_assoc).
    apply IH, fcfs_body_inv, Hs.
Qed.

Lemma fcfs_inv_init st0 : fcfs_inv st0 [] (st0, 0, tally0).
Proof.
  unfold fcfs_inv; repeat split; try reflexivity. intros x [].
Qed.


(** ** What the engines leave alone *)

Lemma heap_finish tl n st ps : heap (finish tl n st ps) = st.
Proof. unfold finish; destruct (make_metrics tl n); reflexivity. Qed.

Lemma fcfs_scheduling_frame st0 ps0 cs :
  run_frame st0 ps0 (fcfs_scheduling st0 ps0 cs).
Proof.
  unfold fcfs_scheduling, run_frame.
  pose proof (fcfs_fold_inv cs st0 (sort_by_at st0 ps0) [] _
                            (fcfs_inv_init st0)) as H.
  destruct (fold_left (fcfs_body cs) (sort_by_at st0 ps0) (st0, 0, tally0))
    as [[st' t'] tl'].
  destruct H as (_ & _ & Hfr & _). rewrite heap_finish.
  intros x Hx; apply Hfr; simpl; now rewrite sort_by_at_In.
Qed.

Lemma np_frame_init st ps tl : np_frame st ps (st, ps, 0, tl).
Proof. split; auto using incl_refl. Qed.

Lemma spn_scheduling_frame st0 ps0 cs fuel :
  run_frame st0 ps0 (spn_scheduling fuel st0 ps0 cs).
Proof.
  unfold spn_scheduling, run_frame.
  pose proof (iterate_keeps (spn_step cs) (np_frame st0 ps0)
                (spn_step_frame cs st0 ps0) fuel _
                (np_frame_init st0 ps0 tally0)) as H.
  destruct (iterate (spn_step cs) fuel (st0, ps0, 0, tally0))
    as [[| |] [[[st ps] t] tl]]; destruct H as (_ & H);
    rewrite ?heap_finish; exact H.
Qed.

Lemma hrrn_scheduling_frame st0 ps0 cs fuel :
  run_frame st0 ps0 (hrrn_scheduling fuel st0 ps0 cs).
Proof.
  unfold hrrn_scheduling, run_frame.
  pose proof (iterate_keeps (hrrn_step cs) (np_frame st0 ps0)
                (hrrn_step_frame cs st0 ps0) fuel _
                (np_frame_init st0 ps0 tally0)) as H.
  destruct (iterate (hrrn_step cs) fuel (st0, ps0, 0, tally0))
    as [[| |] [[[st ps] t] tl]]; destruct H as (_ & H);
    rewrite ?heap_finish; exact H.
Qed.

(** ** RR: one slice *)

Lemma take_arrived_app st t l :
  l = fst (take_arrived st t l) ++ snd (take_arrived st t l).
Proof.
  induction l as [|p l IH]; simpl; [reflexivity|].
  destruct (Qle_bool (inject_Z (at_ (st p))) t); [|reflexivity].
  destruct (take_arrived st t l) as [moved kept]; simpl in *; congruence.
Qed.

(** The arrival times decide what [take_arrived] moves. *)
Lemma take_arrived_ext st st' t l :
  (forall x, at_ (st' x) = at_ (st x)) ->
  take_arrived st' t l = take_arrived st t l.
Proof.
  intros H; induction l as [|p l IH]; simpl; [reflexivity|].
  now rewrite H, IH.
Qed.

Lemma rr_slice_spec cs q st c queue pending t tl :
  let exec := Z.min q (remaining_time (st c)) in
  let rem' := (remaining_time (st c) - exec)%Z in
  let t' := t + inject_Z exec + cs in
  let i := (pid (st c), t, t + inject_Z exec) in
  exists st' tl',
    rr_slice cs q st c queue pending t tl
    = (st',
       (queue ++ fst (take_arrived st t' pending))
         ++ (if Z.ltb 0 rem' then [c] else []),
       snd (take_arrived st t' pending), t', tl') /\
    (forall x, x <> c -> st' x = st x) /\
    (forall x, same_static (st x) (st' x)) /\
    remaining_time (st' c) = rem' /\
    if Z.ltb 0 rem'
    then tl' = add_interval i tl /\
         waiting_time (st' c) = waiting_time (st c) /\
         turnaround_time (st' c) = turnaround_time (st c)
    else tl' = record_metrics (st' c) (add_interval i tl) /\
         turnaround_time (st' c) = t' - inject_Z (at_ (st c)) /\
         waiting_time (st' c)
         = turnaround_time (st' c) - inject_Z (cbt (st c)).
Proof.
  intros exec rem' t' i. unfold rr_slice.
  set (st1 := if Qeq_bool (response_time (st c)) (-1)
              then upd st c (set_response_time (t - inject_Z (at_ (st c))))
              else st).
  assert (H1 : (forall x, x <> c -> st1 x = st x) /\
               (forall x, same_static (st x) (st1 x)) /\
               remaining_time (st1 c) = remaining_time (st c) /\
               waiting_time (st1 c) = waiting_time (st c) /\
               turnaround_time (st1 c) = turnaround_time (st c)).
  { unfold st1; destruct (Qeq_bool (response_time (st c)) (-1));
      [|repeat split; reflexivity].
    split; [intros x Hx; now rewrite upd_other|].
    split; [intros x; unfold same_static; upd_cases; auto|].
    rewrite upd_same; auto. }
  clearbody st1. destruct H1 as (Ho1 & Hs1 & Hr1 & Hw1 & Ht1).
  destruct (Hs1 c) as (Hp & Hc & Ha).
  rewrite Hr1, <- Hp. fold exec. fold rem'.
  set (st2 := upd st1 c (set_remaining_time rem')).
  assert (Hat2 : forall x, at_ (st2 x) = at_ (st x)).
  { intros x; destruct (Hs1 x) as (_ & _ & ->); unfold st2; upd_cases; auto. }
  rewrite (take_arrived_ext st st2 _ pending Hat2). fold t'.
  destruct (take_arrived st t' pending) as [moved kept]; simpl fst; simpl snd.
  unfold st2 at 1; rewrite upd_same; simpl remaining_time.
  destruct (Z.ltb 0 rem').
  - exists st2, (add_interval i tl). split; [reflexivity|].
    split; [intros x Hx; unfold st2; now rewrite upd_other, Ho1|].
    split; [intros x; eapply same_static_trans; [apply Hs1|];
            unfold st2, same_static; upd_cases; auto|].
    unfold st2; rewrite upd_same; simpl; auto.
  - rewrite app_nil_r. eexists; eexists. split; [reflexivity|].
    split; [intros x Hx; unfold st2; now rewrite !upd_other, Ho1|].
    split; [intros x; eapply same_static_trans; [apply Hs1|];
            unfold st2, same_static; upd_cases; auto|].
    unfold st2; rewrite !upd_same; simpl. rewrite Ha, Hc. auto.
Qed.

(** ** RR: total correctness *)



Lemma rr_step_cases cs q st queue pending t tl :
  (queue = [] /\ pending = [] /\
   rr_step cs q (st, queue, pending, t, tl)
   = Break (st, queue, pending, t, tl)) \/
  (exists c queue1 pending1 t1,
      queue ++ pending = c :: (queue1 ++ pending1) /\
      rr_step cs q (st, queue, pending, t, tl)
      = Continue (rr_slice cs q st c queue1 pending1 t1 tl)).
Proof.
  unfold rr_step. destruct queue as [|c queue1].
  - destruct pending as [|p rest]; [left; auto|].
    right; exists p, [], rest, (inject_Z (at_ (st p))); auto.
  - right; exists c, queue1, pending, t; auto.
Qed.


Lemma rr_slice_frame cs q st0 ps0 st c queue1 pending1 t0 t1 tl :
  rr_frame st0 ps0 (st, c :: queue1, pending1, t0, tl) ->
  rr_frame st0 ps0 (rr_slice cs q st c queue1 pending1 t1 tl).
Proof.
  intros (Hincl & Hfr).
  destruct (rr_slice_spec cs q st c queue1 pending1 t1 tl)
    as (st' & tl' & -> & Hoth & _).
  set (exec := Z.min q (remaining_time (st c))) in *.
  set (t' := t1 + inject_Z exec + cs) in *.
  pose proof (take_arrived_app st t' pending1) as Happ.
  destruct (take_arrived st t' pending1) as [moved kept];
    simpl fst in *; simpl snd in *.
  split.
  - intros x Hx. apply Hincl. simpl. rewrite Happ.
    rewrite !in_app_iff in *.
    destruct (Z.ltb 0 (remaining_time (st c) - exec)); simpl in Hx; tauto.
  - intros x Hx. rewrite Hoth; [now apply Hfr|].
    intros ->; apply Hx, Hincl; now left.
Qed.



Lemma rr_step_frame cs q st0 ps0 s :
  rr_frame st0 ps0 s -> rr_frame st0 ps0 (state_of (rr_step cs q s)).
Proof.
  destruct s as [[[[st queue] pending] t] tl]; intros Hinv.
  destruct (rr_step_cases cs q st queue pending t tl)
    as [(_ & _ & H)|(c & queue1 & pending1 & t1 & Heq & H)];
    rewrite H; simpl state_of; [exact Hinv|].
  apply (rr_slice_frame cs q st0 ps0 st c queue1 pending1 t t1 tl).
  unfold rr_frame in *. simpl app. rewrite <- Heq. exact Hinv.
Qed.


Section Partition.
Variable st : store.
Variables f g : addr -> bool.
Hypothesis fg : forall x, g x = negb (f x).

Lemma partition_In l x : In x (filter f l ++ filter g l) <-> In x l.
Proof.
  rewrite in_app_iff, !filter_In, fg. destruct (f x); simpl; intuition.
Qed.


End Partition.

Lemma arrived_or_pending (st : store) (x : addr) :
  Z.ltb 0 (at_ (st x)) = negb (Z.leb (at_ (st x)) 0).
Proof. destruct (Z.ltb_spec 0 (at_ (st x))), (Z.leb_spec (at_ (st x)) 0); simpl; lia. Qed.




Lemma rr_scheduling_frame st0 ps0 cs q fuel :
  run_frame st0 ps0 (rr_scheduling fuel st0 ps0 cs q).
Proof.
  unfold rr_scheduling, run_frame.
  destruct (Z.leb q 0); [reflexivity|].
  pose proof (partition_In _ _ (arrived_or_pending st0) ps0) as HIn.
  pose proof (iterate_keeps (rr_step cs q) (rr_frame st0 ps0)
                (rr_step_frame cs q st0 ps0) fuel
                (st0, filter (fun p => Z.leb (at_ (st0 p)) 0) ps0,
                 filter (fun p => Z.ltb 0 (at_ (st0 p))) ps0, 0, tally0)) as H.
  destruct (iterate (rr_step cs q) fuel _)
    as [[| |] [[[[st queue] pending] t] tl]];
    (destruct H as (_ & H);
     [split; [intros x Hx; now apply HIn | reflexivity] | exact H]).
Qed.

(** ** SRTF: one slice *)

Lemma srtf_slice_spec cs q st c ps completed t tl :
  let exec := Z.min q (remaining_time (st c)) in
  let rem' := (remaining_time (st c) - exec)%Z in
  let t' := t + inject_Z exec + cs in
  let i := (pid (st c), t, t + inject_Z exec) in
  exists st' tl',
    srtf_slice cs q st c ps completed t tl
    = (st',
       (if Z.eqb rem' 0 then remove_first c ps else ps),
       (if Z.eqb rem' 0 then completed ++ [c] else completed), t', tl') /\
    (forall x, x <> c -> st' x = st x) /\
    (forall x, same_static (st x) (st' x)) /\
    remaining_time (st' c) = rem' /\
    if Z.eqb rem' 0
    then tl' = record_metrics (st' c) (add_interval i tl) /\
         turnaround_time (st' c) = t' - inject_Z (at_ (st c)) /\
         waiting_time (st' c)
         = turnaround_time (st' c) - inject_Z (cbt (st c))
    else tl' = add_interval i tl /\
         waiting_time (st' c) = waiting_time (st c) /\
         turnaround_time (st' c) = turnaround_time (st c).
Proof.
  intros exec rem' t' i. unfold srtf_slice.
  set (st1 := if Qeq_bool (response_time (st c)) (-1)
              then upd st c (set_response_time (t - inject_Z (at_ (st c))))
              else st).
  assert (H1 : (forall x, x <> c -> st1 x = st x) /\
               (forall x, same_static (st x) (st1 x)) /\
               remaining_time (st1 c) = remaining_time (st c) /\
               waiting_time (st1 c) = waiting_time (st c) /\
               turnaround_time (st1 c) = turnaround_time (st c)).
  { unfold st1; destruct (Qeq_bool (response_time (st c)) (-1));
      [|repeat split; reflexivity].
    split; [intros x Hx; now rewrite upd_other|].
    split; [intros x; unfold same_static; upd_cases; auto|].
    rewrite upd_same; auto. }
  clearbody st1. destruct H1 as (Ho1 & Hs1 & Hr1 & Hw1 & Ht1).
  destruct (Hs1 c) as (Hp & Hc & Ha).
  rewrite Hr1, <- Hp. fold exec. fold rem'.
  set (st2 := upd st1 c (set_remaining_time rem')). fold t'.
  unfold st2 at 1; rewrite upd_same; simpl remaining_time.
  destruct (Z.eqb rem' 0).
  - eexists; eexists. split; [reflexivity|].
    split; [intros x Hx; unfold st2; now rewrite !upd_other, Ho1|].
    split; [intros x; eapply same_static_trans; [apply Hs1|];
            unfold st2, same_static; upd_cases; auto|].
    unfold st2; rewrite !upd_same; simpl. rewrite Ha, Hc. auto.
  - exists st2, (add_interval i tl). split; [reflexivity|].
    split; [intros x Hx; unfold st2; now rewrite upd_other, Ho1|].
    split; [intros x; eapply same_static_trans; [apply Hs1|];
            unfold st2, same_static; upd_cases; auto|].
    unfold st2; rewrite upd_same; simpl; auto.
Qed.

(** ** SRTF: total correctness *)



Lemma srtf_step_cases cs q (st : store) ps completed t tl :
  (ps = [] /\
   existsb (fun p => Z.ltb 0 (remaining_time (st p))) completed = false /\
   srtf_step cs q (st, ps, completed, t, tl)
   = Break (st, ps, completed, t, tl)) \/
  (ps = [] /\
   existsb (fun p => Z.ltb 0 (remaining_time (st p))) completed = true /\
   srtf_step cs q (st, ps, completed, t, tl)
   = Fail ValueError (st, ps, completed, t, tl)) \/
  (exists p rest,
      ps = p :: rest /\ eligible_at st t ps = [] /\
      srtf_step cs q (st, ps, completed, t, tl)
      = Continue (st, ps, completed, inject_Z (min_at st p rest), tl)) \/
  (exists c,
      In c ps /\
      srtf_step cs q (st, ps, completed, t, tl)
      = Continue (srtf_slice cs q st c ps completed t tl)).
Proof.
  unfold srtf_step. destruct ps as [|p rest].
  - simpl. destruct (existsb _ completed); [right; left|left]; auto.
  - simpl orb. right; right.
    destruct (eligible_at st t (p :: rest)) as [|e es] eqn:Hel.
    + left; exists p, rest; auto.
    + right. exists (srtf_select st e es). split; [|reflexivity].
      assert (Hin : In (srtf_select st e es) (e :: es)) by apply min_from_mem.
      rewrite <- Hel in Hin; apply eligible_at_In in Hin; tauto.
Qed.


Lemma srtf_slice_frame cs q st0 ps0 st c ps completed t tl :
  In c ps ->
  srtf_frame st0 ps0 (st, ps, completed, t, tl) ->
  srtf_frame st0 ps0 (srtf_slice cs q st c ps completed t tl).
Proof.
  intros Hc (Hincl & Hfr).
  destruct (srtf_slice_spec cs q st c ps completed t tl)
    as (st' & tl' & -> & Hoth & _).
  split.
  - intros x Hx. apply Hincl.
    destruct (Z.eqb _ 0); [eapply remove_first_In; eauto | exact Hx].
  - intros x Hx. rewrite Hoth; [now apply Hfr|].
    intros ->; apply Hx, Hincl, Hc.
Qed.



Lemma srtf_step_frame cs q st0 ps0 s :
  srtf_frame st0 ps0 s -> srtf_frame st0 ps0 (state_of (srtf_step cs q s)).
Proof.
  destruct s as [[[[st ps] completed] t] tl]; intros Hinv.
  destruct (srtf_step_cases cs q st ps completed t tl)
    as [(_ & _ & H)|[(_ & _ & H)|[(p & rest & _ & _ & H)|(c & Hc & H)]]];
    rewrite H; simpl state_of; try exact Hinv.
  now apply srtf_slice_frame.
Qed.





Lemma srtf_scheduling_frame st0 ps0 cs q fuel :
  run_frame st0 ps0 (srtf_scheduling fuel st0 ps0 cs q).
Proof.
  unfold srtf_scheduling, run_frame.
  pose proof (iterate_keeps (srtf_step cs q) (srtf_frame st0 ps0)
                (srtf_step_frame cs q st0 ps0) fuel
                (st0, ps0, [], 0, tally0)) as H.
  destruct (iterate (srtf_step cs q) fuel _)
    as [[| |] [[[[st ps] completed] t] tl]];
    (destruct H as (_ & H);
     [split; [apply incl_refl | reflexivity]
     | rewrite ?heap_finish; exact H]).
Qed.

(** ** The five engines on valid input *)







(** ** C1: the averages and the lists *)


(** C1 fails on the scenario of the specification: FCFS returns the
    average turnaround 26/3 with [all_turnaround_time = [0; 4; 6]] (the
    response times, mean 10/3), and the average response 10/3 with
    [all_response_time = [5; 7; 14]] (the turnaround times). *)
Theorem fcfs_scenario_lists_swapped :
  exists gantt m,
    result (fcfs_scheduling scenario [0; 1; 2]%nat 0) = Done (gantt, m) /\
    Metrics.avg_waiting_time m == mean (Metrics.all_waiting_time m) /\
    Metrics.avg_turnaround_time m == 26 # 3 /\
    Metrics.all_turnaround_time m = [0; 4; 6] /\
    mean (Metrics.all_turnaround_time m) == 10 # 3 /\
    Metrics.avg_response_time m == 10 # 3 /\
    Metrics.all_response_time m = [5; 7; 14] /\
    mean (Metrics.all_response_time m) == 26 # 3 /\
    ~ averages_are_means m.
Proof.
  eexists; eexists. split; [vm_compute; reflexivity|].
  repeat split; try reflexivity.
  intros (_ & H & _); vm_compute in H; discriminate H.
Qed.

(** ** C3: the ready queue of RR after a slice *)

Lemma filter_none {A : Type} (f : A -> bool) (l : list A) :
  (forall x, In x l -> f x = false) -> filter f l = [].
Proof.
  induction l as [|y l IH]; intros H; simpl; [reflexivity|].
  rewrite (H y (or_introl eq_refl)). apply IH; intros; apply H; now right.
Qed.

Lemma take_arrived_sorted st t l :
  sorted_at st l -> fst (take_arrived st t l) = eligible_at st t l.
Proof.
  induction l as [|p l IH]; simpl; [reflexivity|]. intros (Hp & Hl).
  destruct (Qle_bool (inject_Z (at_ (st p))) t) eqn:E.
  - specialize (IH Hl). destruct (take_arrived st t l); simpl in *.
    now rewrite IH.
  - simpl. symmetry; apply filter_none. intros x Hx.
    destruct (Qle_bool (inject_Z (at_ (st x))) t) eqn:Ex; [|reflexivity].
    apply Qle_bool_iff in Ex. specialize (Hp x Hx). rewrite Zle_Qle in Hp.
    assert (H : Qle_bool (inject_Z (at_ (st p))) t = true)
      by (apply Qle_bool_iff; lra).
    congruence.
Qed.

Lemma sorted_at_filter st (f : addr -> bool) l :
  sorted_at st l -> sorted_at st (filter f l).
Proof.
  induction l as [|p l IH]; simpl; [tauto|]. intros (Hp & Hl).
  destruct (f p); simpl; auto.
  split; [|auto]. intros x Hx; apply Hp. apply filter_In in Hx; tauto.
Qed.

Lemma sort_by_at_sorted st l : sorted_at st l -> sort_by_at st l = l.
Proof.
  induction l as [|a l IH]; simpl; [reflexivity|]. intros (Ha & Hl).
  rewrite (IH Hl). destruct l as [|y l']; simpl; [reflexivity|].
  destruct (Z.leb_spec (at_ (st a)) (at_ (st y))); [reflexivity|].
  specialize (Ha y (or_introl eq_refl)). lia.
Qed.

(** When the pending list is in arrival order, the queue after a slice is
    the one the specification describes. *)
Lemma rr_requeue_in_arrival_order cs q st c queue pending t tl :
  sorted_at st pending ->
  let '(st', queue', _, t', _) := rr_slice cs q st c queue pending t tl in
  queue' = rr_claimed_queue st queue pending t' c (remaining_time (st' c)).
Proof.
  intros Hs.
  destruct (rr_slice_spec cs q st c queue pending t tl)
    as (st' & tl' & -> & _ & _ & -> & _).
  unfold rr_claimed_queue.
  rewrite take_arrived_sorted by exact Hs.
  rewrite sort_by_at_sorted by (apply sorted_at_filter, Hs).
  now rewrite app_assoc.
Qed.

(** C3 fails when the input is not in arrival order.  With P1(arrival 0,
    burst 10), P2(arrival 100), P3(arrival 1) and quantum 2, the first
    slice of P1 ends at time 2; P3 has arrived, yet the queue is [P1] alone
    and P3 stays pending behind P2, where the specification has [P3; P1].
    P1 then runs to its end and P3 is dispatched at time 101. *)
Theorem rr_unsorted_requeue :
  rr_step 0 2 (rr_unsorted, [0%nat], [1; 2]%nat, 0, tally0)
  = Continue (rr_slice 0 2 rr_unsorted 0%nat [] [1; 2]%nat 0 tally0) /\
  (let '(st', queue', pending', t', _) :=
     rr_slice 0 2 rr_unsorted 0%nat [] [1; 2]%nat 0 tally0 in
   t' == 2 /\ queue' = [0%nat] /\ pending' = [1; 2]%nat /\
   rr_claimed_queue rr_unsorted [] [1; 2]%nat t' 0%nat
                    (remaining_time (st' 0%nat))
   = [2; 0]%nat) /\
  exists m,
    result (rr_scheduling 30 rr_unsorted [0; 1; 2]%nat 0 2)
    = Done ([("P1"%string, 0, 2); ("P1"%string, 2, 4); ("P1"%string, 4, 6);
             ("P1"%string, 6, 8); ("P1"%string, 8, 10);
             ("P2"%string, 100, 101); ("P3"%string, 101, 102)], m).
Proof.
  split; [reflexivity|]. split.
  - vm_compute. repeat split; reflexivity.
  - eexists. vm_compute. reflexivity.
Qed.

(** ** C4: a quantum that is not positive *)

(** RR checks the quantum first: a [ValueError], the dicts and the list as
    they were. *)
Lemma rr_rejects_quantum fuel st ps cs q :
  (q <= 0)%Z ->
  rr_scheduling fuel st ps cs q = mkRun (Raise ValueError) st ps.
Proof.
  intros Hq; unfold rr_scheduling.
  destruct (Z.leb_spec q 0); [reflexivity | lia].
Qed.

(** SRTF has no such check, and with a quantum that is not positive no
    slice lowers any remaining time: on valid input its loop never ends. *)
Lemma srtf_busy_step cs q s :
  (q <= 0)%Z -> srtf_busy s ->
  exists s', srtf_step cs q s = Continue s' /\ srtf_busy s'.
Proof.
  destruct s as [[[[st ps] completed] t] tl]; intros Hq (Hne & Hpos).
  destruct (srtf_step_cases cs q st ps completed t tl)
    as [(E & _)|[(E & _)|[(p & rest & _ & _ & E)|(c & Hc & E)]]];
    try congruence.
  - eexists; split; [exact E|]. split; assumption.
  - eexists; split; [exact E|].
    destruct (srtf_slice_spec cs q st c ps completed t tl)
      as (st2 & tl2 & -> & Hoth & _ & Hr & _).
    pose proof (Hpos c Hc).
    destruct (Z.eqb_spec
                (remaining_time (st c) - Z.min q (remaining_time (st c))) 0);
      [lia|].
    split; [exact Hne|].
    intros x Hx; destruct (Nat.eq_dec x c) as [->|Hn];
      [rewrite Hr; lia | rewrite (Hoth x Hn); auto].
Qed.

Lemma srtf_quantum_diverges fuel st ps cs q :
  valid_input st ps cs -> (q <= 0)%Z ->
  result (srtf_scheduling fuel st ps cs q) = OutOfFuel.
Proof.
  intros (Hne & _ & Hv) Hq. unfold srtf_scheduling.
  assert (H0 : srtf_busy (st, ps, [], 0, tally0)).
  { split; [exact Hne|]. intros x Hx. destruct (Hv x Hx) as (? & _ & ?). lia. }
  pose proof (iterate_diverges (srtf_step cs q) srtf_busy
                (fun s => srtf_busy_step cs q s Hq) fuel _ H0) as H.
  destruct (iterate (srtf_step cs q) fuel (st, ps, [], 0, tally0))
    as [stat [[[[st' ps'] completed] t] tl]].
  simpl in H. now rewrite H.
Qed.

(** Inside [simulate_all_algorithms] RR runs before SRTF, so there a
    quantum that is not positive ends the loop with the [ValueError] of
    RR. *)
Example simulate_zero_quantum :
  fst (fst (simulate_all_algorithms 100 [0; 1; 2]%nat scenario 3%nat 0 0))
  = Raise ValueError.
Proof. vm_compute. reflexivity. Qed.

(** C4 fails for SRTF.  With quantum 0 on one process (burst 1, arrival 0)
    the first pass emits the interval (P1, 0, 0) and sets the response
    time of the process, and the engine never returns: every amount of
    fuel is used up. *)
Theorem srtf_zero_quantum_runs :
  (exists st' tl',
      srtf_step 0 0 (single, [0%nat], [], 0, tally0)
      = Continue (st', [0%nat], [], 0, tl') /\
      gantt_data tl' = [("P1"%string, 0, 0)] /\
      response_time (single 0%nat) = -1 /\ response_time (st' 0%nat) = 0) /\
  forall fuel, result (srtf_scheduling fuel single [0%nat] 0 0) = OutOfFuel.
Proof.
  split.
  - eexists; eexists. split; [reflexivity|]. repeat split; reflexivity.
  - intros fuel. apply srtf_quantum_diverges; [|lia].
    split; [discriminate|]. split; [apply Qle_refl|].
    intros a [<-|[]]; repeat split; simpl; lia.
Qed.

(** ** C7: the division by the number of processes *)








(** ** The statements that write the turnaround *)

(** The statements that write the turnaround.  FCFS, SPN and HRRN
    ([run_whole_burst]) write [end_time - arrival_time] for the interval
    they have just appended; RR and SRTF, on the slice that finishes a
    process, write [end_time + contextSwitch - arrival_time].  So when the
    final slice of a process ends at the same time under both groups, RR
    and SRTF report a turnaround and a waiting time larger by exactly
    [contextSwitch], and different ones when [contextSwitch > 0]. *)
Lemma completion_point_of_slice cs q (st1 st2 : store) a t1 t2 tl1 tl2
        queue pending ps completed :
  same_static (st1 a) (st2 a) ->
  (remaining_time (st2 a) <= q)%Z ->
  t1 + inject_Z (cbt (st1 a)) == t2 + inject_Z (remaining_time (st2 a)) ->
  let '(h1, _, g1) := run_whole_burst cs st1 t1 tl1 a in
  let '(h2, _, _, _, g2) := rr_slice cs q st2 a queue pending t2 tl2 in
  let '(h3, _, _, _, g3) := srtf_slice cs q st2 a ps completed t2 tl2 in
  let end1 := t1 + inject_Z (cbt (st1 a)) in
  let end2 := t2 + inject_Z (remaining_time (st2 a)) in
  let arrival := inject_Z (at_ (st1 a)) in
  (gantt_data g1 = gantt_data tl1 ++ [(pid (st1 a), t1, end1)] /\
   gantt_data g2 = gantt_data tl2 ++ [(pid (st2 a), t2, end2)] /\
   gantt_data g3 = gantt_data tl2 ++ [(pid (st2 a), t2, end2)]) /\
  (turnaround_time (h1 a) == end1 - arrival /\
   turnaround_time (h2 a) == end2 + cs - arrival /\
   turnaround_time (h3 a) == end2 + cs - arrival) /\
  (turnaround_time (h2 a) == turnaround_time (h1 a) + cs /\
   waiting_time (h2 a) == waiting_time (h1 a) + cs /\
   turnaround_time (h3 a) == turnaround_time (h1 a) + cs /\
   waiting_time (h3 a) == waiting_time (h1 a) + cs) /\
  (0 < cs -> ~ turnaround_time (h2 a) == turnaround_time (h1 a) /\
             ~ turnaround_time (h3 a) == turnaround_time (h1 a)).
Proof.
  intros (Hpid & Hcbt & Hat) Hq Hend.
  destruct (run_whole_burst cs st1 t1 tl1 a) as [[h1 c1] g1] eqn:E1.
  apply run_whole_burst_spec in E1.
  destruct E1 as (_ & _ & _ & Hw1 & Ht1 & _ & ->).
  destruct (rr_slice_spec cs q st2 a queue pending t2 tl2)
    as (h2 & g2 & -> & _ & _ & _ & H2).
  destruct (srtf_slice_spec cs q st2 a ps completed t2 tl2)
    as (h3 & g3 & -> & _ & _ & _ & H3).
  rewrite Z.min_r in H2, H3 by exact Hq.
  rewrite Z.sub_diag in H2, H3. simpl in H2, H3.
  destruct H2 as (-> & Ht2 & Hw2). destruct H3 as (-> & Ht3 & Hw3).
  cbv zeta. rewrite Hw1, Ht1, Hw2, Ht2, Hw3, Ht3, <- Hat, <- Hcbt.
  split; [repeat split; reflexivity|].
  split; [repeat split; reflexivity|].
  split; [repeat split; lra|].
  intros Hcs; split; lra.
Qed.

(** One process (burst 1, arrival 0) run alone with context switch 1/2:
    every engine emits the interval (P1, 0, 1); FCFS, SPN and HRRN report
    turnaround 1 and waiting 0, RR and SRTF turnaround 3/2 and waiting
    1/2. *)
Example completion_point_single :
  forall alg,
    let r := run_engine 10 alg single [0%nat] (1 # 2) 1 in
    (exists m, result r = Done ([("P1"%string, 0, 1)], m)) /\
    match alg with
    | FCFS | SPN | HRRN =>
        turnaround_time (heap r 0%nat) == 1 /\ waiting_time (heap r 0%nat) == 0
    | RR | SRTF =>
        turnaround_time (heap r 0%nat) == 3 # 2 /\
        waiting_time (heap r 0%nat) == 1 # 2
    end.
Proof.
  intros alg; destruct alg; cbv zeta;
    (split; [eexists; vm_compute; reflexivity | split; vm_compute; reflexivity]).
Qed.

(** ** C8: the caller's list *)

Lemma run_engine_frame fuel alg st ps cs q :
  run_frame st ps (run_engine fuel alg st ps cs q).
Proof.
  destruct alg; simpl;
    auto using fcfs_scheduling_frame, spn_scheduling_frame,
               hrrn_scheduling_frame, rr_scheduling_frame,
               srtf_scheduling_frame.
Qed.

(** [deepcopy] allocates from [next] upwards, leaves the dicts below [next]
    alone, and returns only fresh dicts or copies recorded in the memo. *)
Lemma deepcopy_fresh l :
  forall st next memo st' next' l',
    deepcopy st next memo l = (st', next', l') ->
    (next <= next')%nat /\
    (forall a, (a < next)%nat -> st' a = st a) /\
    (forall b, In b l' ->
               (next <= b)%nat \/ exists a, memo_find a memo = Some b).
Proof.
  induction l as [|x l IH]; intros st next memo st' next' l' H; simpl in H.
  - injection H as <- <- <-. repeat split; auto. intros b [].
  - destruct (memo_find x memo) as [y|] eqn:Hm.
    + destruct (deepcopy st next memo l) as [[st1 next1] r] eqn:E.
      injection H as <- <- <-.
      destruct (IH _ _ _ _ _ _ E) as (H1 & H2 & H3).
      split; [exact H1|]. split; [exact H2|].
      intros b [<-|Hb]; [right; eauto | auto].
    + cbv zeta in H.
      match type of H with
      | context [deepcopy ?f ?n ?m l] =>
          destruct (deepcopy f n m l) as [[st1 next1] r] eqn:E
      end.
      injection H as <- <- <-.
      destruct (IH _ _ _ _ _ _ E) as (H1 & H2 & H3).
      split; [lia|]. split.
      * intros a Ha. rewrite H2 by lia.
        destruct (Nat.eqb_spec a next); [lia | reflexivity].
      * intros b [<-|Hb]; [left; lia|].
        destruct (H3 b Hb) as [Hle|(a & Ha)]; [left; lia|].
        simpl in Ha. destruct (Nat.eqb_spec x a);
          [injection Ha as <-; left; lia | right; eauto].
Qed.


Lemma simulate_loop_frame fuel self_processes cs q algs :
  forall st next results,
    let '(_, st', next') :=
      simulate_loop fuel algs self_processes st next cs q results in
    (next <= next')%nat /\ forall a, (a < next)%nat -> st' a = st a.
Proof.
  induction algs as [|alg algs IH]; intros st next results; simpl.
  - split; auto.
  - destruct (deepcopy st next [] self_processes) as [[st1 next1] copy] eqn:E.
    destruct (deepcopy_fresh _ _ _ _ _ _ _ E) as (H1 & H2 & H3).
    pose proof (run_engine_frame fuel alg st1 copy cs q) as Hfr.
    assert (Hold : forall a, (a < next)%nat ->
                             heap (run_engine fuel alg st1 copy cs q) a = st a).
    { intros a Ha. rewrite Hfr, H2; auto.
      intros Hin. destruct (H3 a Hin) as [Hle|(x & Hx)]; [lia|discriminate]. }
    destruct (result (run_engine fuel alg st1 copy cs q)) as [gm|e|].
    + specialize (IH (heap (run_engine fuel alg st1 copy cs q)) next1
                     (results ++ [(alg, gm)])).
      destruct (simulate_loop fuel algs self_processes _ next1 cs q _)
        as [[out st'] next'].
      destruct IH as (H4 & H5). split; [lia|].
      intros a Ha. rewrite H5 by lia. auto.
    + split; auto.
    + split; auto.
Qed.



(** The engines themselves change what they are given: FCFS sorts the list
    in place, SPN empties it, and both write the metrics into the dicts. *)
Example engines_change_their_argument :
  processes_after (fcfs_scheduling spn_ties [0; 1; 2]%nat 0) = [0; 2; 1]%nat /\
  processes_after (spn_scheduling 10 spn_ties [0; 1; 2]%nat 0) = [] /\
  turnaround_time (spn_ties 1%nat) = 0 /\
  turnaround_time (heap (spn_scheduling 10 spn_ties [0; 1; 2]%nat 0) 1%nat) = 4.
Proof. repeat split; vm_compute; reflexivity. Qed.


(** ** The last interval of a process *)







(** ** The completion point, engine by engine *)







Lemma insert_by_at_perm st a l : Permutation (insert_by_at st a l) (a :: l).
Proof.
  induction l as [|y l IH]; simpl; [reflexivity|].
  destruct (Z.leb (at_ (st a)) (at_ (st y))); [reflexivity|].
  rewrite IH. apply perm_swap.
Qed.

Lemma sort_by_at_perm st l : Permutation (sort_by_at st l) l.
Proof.
  induction l as [|y l IH]; simpl; [reflexivity|].
  rewrite insert_by_at_perm. now constructor.
Qed.









(** ** C10: the completion point of a whole run *)





(** * The timeline of a run *)

(** ** Intervals in order *)










(** ** FCFS, SPN, HRRN: the clock *)






(** ** The loops with one more invariant *)

Lemma finish_done tl n st ps :
  tally_ok tl -> length (all_waiting_time tl) = n -> n <> O ->
  exists m,
    finish tl n st ps = mkRun (Done (gantt_data tl, m)) st ps /\
    metrics_of tl m.
Proof.
  intros Htl Hn Hnz.
  destruct (finish_ok tl n st ps Htl Hn Hnz) as (m & Hf & Havg).
  exists m. split; [exact Hf|]. split; [exact Havg|].
  unfold finish, make_metrics, py_div in Hf.
  destruct n as [|n]; [congruence|].
  injection Hf as <-. repeat split; reflexivity.
Qed.







(** ** RR and SRTF: the clock *)












(** ** FCFS: the loop with one more invariant *)

Lemma fcfs_fold_keeps (J : list addr -> store -> Q -> tally -> Prop) cs
      (st0 : store) l :
  (forall a l' (st : store) t tl,
      (forall x, same_static (st0 x) (st x)) ->
      J (a :: l') st t tl ->
      let '(st', t', tl') := fcfs_body cs (st, t, tl) a in J l' st' t' tl') ->
  forall (st : store) t tl,
    (forall x, same_static (st0 x) (st x)) ->
    J l st t tl ->
    let '(st', t', tl') := fold_left (fcfs_body cs) l (st, t, tl) in
    J [] st' t' tl'.
Proof.
  intros Hstep. induction l as [|a l IH]; intros st t tl Hst HJ; simpl;
    [exact HJ|].
  pose proof (Hstep a l st t tl Hst HJ) as H.
  unfold fcfs_body in H |- *.
  set (t1 := if Qlt_bool t (inject_Z (at_ (st a)))
             then inject_Z (at_ (st a)) else t) in *.
  destruct (run_whole_burst cs st t1 tl a) as [[st' t'] tl'] eqn:E.
  apply IH; [|exact H].
  intros x. eapply same_static_trans; [apply Hst|].
  apply run_whole_burst_spec in E. apply E.
Qed.

Lemma fcfs_scheduling_keeps (J : list addr -> store -> Q -> tally -> Prop)
      (st0 : store) ps0 cs :
  ps0 <> [] ->
  (forall a l' (st : store) t tl,
      (forall x, same_static (st0 x) (st x)) ->
      J (a :: l') st t tl ->
      let '(st', t', tl') := fcfs_body cs (st, t, tl) a in J l' st' t' tl') ->
  J (sort_by_at st0 ps0) st0 0 tally0 ->
  exists st' t' tl' m,
    fcfs_scheduling st0 ps0 cs
    = mkRun (Done (gantt_data tl', m)) st' (sort_by_at st0 ps0) /\
    metrics_of tl' m /\ J [] st' t' tl'.
Proof.
  intros Hne Hstep H0. unfold fcfs_scheduling.
  pose proof (fcfs_fold_inv cs st0 (sort_by_at st0 ps0) [] _
                            (fcfs_inv_init st0)) as H.
  pose proof (fcfs_fold_keeps J cs st0 (sort_by_at st0 ps0) Hstep st0 0 tally0
                              (fun x => same_static_refl (st0 x)) H0) as HJ.
  destruct (fold_left (fcfs_body cs) (sort_by_at st0 ps0) (st0, 0, tally0))
    as [[st' t'] tl'].
  destruct H as (_ & _ & _ & Htl & Hlen). simpl in Hlen.
  destruct (finish_done tl' (length (sort_by_at st0 ps0)) st'
                        (sort_by_at st0 ps0) Htl Hlen) as (m & -> & Hm).
  { rewrite sort_by_at_length; destruct ps0; simpl; congruence. }
  exists st', t', tl', m; auto.
Qed.


(** ** The timeline of the five engines *)


(** * What a run does with each process *)

(** ** Processes still to run and processes done *)















(** ** FCFS, SPN, HRRN: one dispatch *)






(** ** RR and SRTF: one slice *)










(** ** The five engines, process by process *)






Lemma scenario_valid_switch : valid_input scenario [0; 1; 2]%nat (1 # 2).
Proof.
  split; [discriminate|]. split; [discriminate|].
  intros a [<-|[<-|[<-|[]]]]; repeat split; simpl; lia.
Qed.













(** * FCFS: the order of service *)

Lemma insert_by_at_ordered st a l :
  sorted_at st l -> sorted_at st (insert_by_at st a l).
Proof.
  induction l as [|y l IH]; simpl; intros H; [split; [intros x []|exact I]|].
  destruct H as (Hy & Hl).
  destruct (Z.leb_spec (at_ (st a)) (at_ (st y))); simpl.
  - split; [|split; assumption].
    intros x [<-|Hx]; [assumption|]. specialize (Hy x Hx). lia.
  - split; [|now apply IH].
    intros x Hx. apply insert_by_at_In in Hx.
    destruct Hx as [->|Hx]; [lia | now apply Hy].
Qed.

Lemma sort_by_at_ordered st l : sorted_at st (sort_by_at st l).
Proof.
  induction l as [|a l IH]; simpl; [exact I|]. now apply insert_by_at_ordered.
Qed.

(** The sort is stable: processes with the same arrival keep their order. *)
Lemma insert_by_at_stable st v a l :
  filter (fun x => Z.eqb (at_ (st x)) v) (insert_by_at st a l)
  = filter (fun x => Z.eqb (at_ (st x)) v) (a :: l).
Proof.
  induction l as [|y l IH]; [reflexivity|]. simpl insert_by_at.
  destruct (Z.leb_spec (at_ (st a)) (at_ (st y))); [reflexivity|].
  simpl in *. rewrite IH.
  destruct (Z.eqb_spec (at_ (st a)) v), (Z.eqb_spec (at_ (st y)) v);
    try reflexivity.
  lia.
Qed.

Lemma sort_by_at_stable st v l :
  filter (fun x => Z.eqb (at_ (st x)) v) (sort_by_at st l)
  = filter (fun x => Z.eqb (at_ (st x)) v) l.
Proof.
  induction l as [|a l IH]; [reflexivity|]. simpl sort_by_at.
  rewrite insert_by_at_stable. simpl. now rewrite IH.
Qed.

(** FCFS sorts the list it is given by arrival time, in place, and serves
    the processes in that order: the ids of the Gantt data are the ids of
    the sorted list, one interval each.  The sorted list holds the same
    processes in the order of arrival, and the processes that arrive at the
    same time are in the order of the input. *)
Theorem fcfs_serves_in_arrival_order (st : store) ps cs :
  ps <> [] ->
  let r := fcfs_scheduling st ps cs in
  exists gantt m,
    result r = Done (gantt, m) /\
    map pid_of gantt = map (fun x => pid (st x)) (processes_after r) /\
    sorted_at st (processes_after r) /\
    Permutation ps (processes_after r) /\
    forall v,
      filter (fun x => Z.eqb (at_ (st x)) v) (processes_after r)
      = filter (fun x => Z.eqb (at_ (st x)) v) ps.
Proof.
  intros Hne r.
  destruct (fcfs_scheduling_keeps
              (fun l _ _ tl =>
                 map pid_of (gantt_data tl) ++ map (fun x => pid (st x)) l
                 = map (fun x => pid (st x)) (sort_by_at st ps))
              st ps cs Hne)
    as (st' & t' & tl' & m & Hr & _ & HJ).
  - intros a l' st1 t tl Hst HJ. unfold fcfs_body.
    set (t1 := if Qlt_bool t (inject_Z (at_ (st1 a)))
               then inject_Z (at_ (st1 a)) else t).
    destruct (run_whole_burst cs st1 t1 tl a) as [[st' t'] tl'] eqn:E.
    apply run_whole_burst_spec in E.
    destruct E as (_ & _ & _ & _ & _ & _ & ->).
    simpl gantt_data. rewrite map_app, <- app_assoc. simpl.
    unfold pid_of at 2; simpl.
    destruct (Hst a) as (<- & _). exact HJ.
  - reflexivity.
  - unfold r. rewrite Hr. simpl.
    exists (gantt_data tl'), m. split; [reflexivity|].
    rewrite app_nil_r in HJ.
    split; [exact HJ|]. split; [apply sort_by_at_ordered|].
    split; [symmetry; apply sort_by_at_perm | intros v; apply sort_by_at_stable].
Qed.

Lemma fcfs_serves_in_arrival_order_witness :
  exists gantt m,
    result (fcfs_scheduling spn_ties [0; 1; 2]%nat 0) = Done (gantt, m) /\
    map pid_of gantt
    = map (fun x => pid (spn_ties x))
          (processes_after (fcfs_scheduling spn_ties [0; 1; 2]%nat 0)).
Proof.
  destruct (fcfs_serves_in_arrival_order spn_ties [0; 1; 2]%nat 0)
    as (gantt & m & H1 & H2 & _).
  - discriminate.
  - exists gantt, m. split; assumption.
Defined.

(** * Plotting and animation *)







Lemma filter_all {A : Type} (f : A -> bool) (l : list A) :
  (forall x, In x l -> f x = true) -> filter f l = l.
Proof.
  induction l as [|y l IH]; intros H; simpl; [reflexivity|].
  rewrite (H y) by now left. rewrite IH; [reflexivity|].
  intros x Hx; apply H; now right.
Qed.





(** * The runner on a valid list *)
















(** * HRRN and a burst of zero *)







(** * The process list of the window *)

(** ** The list as the engines see it *)

Lemma nth_objects (d : process) (l : list process) :
  forall pre,
    map (fun a => nth a (pre ++ l) d) (seq (length pre) (length l)) = l.
Proof.
  induction l as [|x l IH]; intros pre; [reflexivity|].
  simpl. rewrite nth_middle. f_equal.
  specialize (IH (pre ++ [x])).
  rewrite <- app_assoc, length_app, Nat.add_1_r in IH. exact IH.
Qed.

Lemma store_of_objects (l : list process) : map (store_of l) (objects_of l) = l.
Proof. exact (nth_objects _ l []). Qed.

Lemma objects_below (l : list process) a :
  In a (objects_of l) -> (a < length l)%nat.
Proof. unfold objects_of. rewrite in_seq. lia. Qed.

Lemma store_of_In (l : list process) a :
  In a (objects_of l) -> In (store_of l a) l.
Proof. intros H. apply nth_In. now apply objects_below. Qed.

Lemma well_formed_input (l : list process) cs :
  well_formed l -> l <> [] -> 0 <= cs ->
  valid_input (store_of l) (objects_of l) cs /\
  unique_ids (store_of l) (objects_of l) /\
  fresh_input (store_of l) (objects_of l).
Proof.
  intros (Hnd & Hall) Hne Hcs. split; [|split].
  - split; [|split; [exact Hcs|]].
    + unfold objects_of. destruct l; [congruence|discriminate].
    + intros a Ha. destruct (Hall _ (store_of_In l a Ha)) as (H1 & H2 & H3).
      repeat split; [exact H1 | exact H2 | now rewrite H3].
  - unfold unique_ids. rewrite <- (map_map (store_of l) pid).
    now rewrite store_of_objects.
  - intros a Ha. destruct (Hall _ (store_of_In l a Ha)) as (_ & _ & H3).
    rewrite H3. reflexivity.
Qed.

(** ** The commands keep the list well formed *)

Lemma well_formed_nil : well_formed [].
Proof. split; [constructor | intros p []]. Qed.

Lemma existsb_pid s (l : list process) :
  existsb (fun p => String.eqb (pid p) s) l = false -> ~ In s (map pid l).
Proof.
  induction l as [|p l IH]; simpl; [tauto|].
  intros H. apply orb_false_iff in H. destruct H as (H1 & H2).
  apply String.eqb_neq in H1. intros [H|H]; [congruence | now apply IH].
Qed.

Lemma well_formed_snoc (l : list process) s c a :
  well_formed l -> ~ In s (map pid l) -> (0 < c)%Z -> (0 <= a)%Z ->
  well_formed (l ++ [new_process s c a]).
Proof.
  intros (Hnd & Hall) Hs Hc Ha. split.
  - rewrite map_app. apply NoDup_app; [exact Hnd | |].
    + simpl. constructor; [intros [] | constructor].
    + intros x Hx [<-|[]]. exact (Hs Hx).
  - intros p Hp. apply in_app_iff in Hp.
    destruct Hp as [Hp|[<-|[]]]; [now apply Hall|].
    repeat split; assumption.
Qed.

Lemma add_process_well_formed s c a (l : list process) :
  well_formed l -> well_formed (fst (add_process s c a l)).
Proof.
  intros Hwf. unfold add_process.
  destruct c as [c|], a as [a|]; simpl; try exact Hwf.
  destruct (Z.leb_spec c 0); simpl; [exact Hwf|].
  destruct (Z.ltb_spec a 0); simpl; [exact Hwf|].
  destruct (existsb (fun p => String.eqb (pid p) s) l) eqn:E; simpl;
    [exact Hwf|].
  apply well_formed_snoc; auto using existsb_pid.
Qed.

Lemma NoDup_map_filter {A B : Type} (f : A -> B) (g : A -> bool) (l : list A) :
  NoDup (map f l) -> NoDup (map f (filter g l)).
Proof.
  induction l as [|x l IH]; simpl; intros H; [constructor|].
  inversion H as [|? ? Hn Hnd]; subst.
  destruct (g x); simpl; [|now apply IH].
  constructor; [|now apply IH].
  intros Hin. apply Hn. apply in_map_iff in Hin.
  destruct Hin as (y & Hy & Hin). apply filter_In in Hin.
  rewrite <- Hy. apply in_map, Hin.
Qed.

Lemma delete_process_well_formed sel (l : list process) :
  well_formed l -> well_formed (fst (delete_process sel l)).
Proof.
  intros (Hnd & Hall). destruct sel as [v|]; simpl; [|split; assumption].
  split; [now apply NoDup_map_filter|].
  intros p Hp. apply filter_In in Hp. now apply Hall.
Qed.

Lemma append_inj (p s1 s2 : string) :
  (p ++ s1 = p ++ s2)%string -> s1 = s2.
Proof.
  induction p as [|ch p IH]; simpl; intros H; [exact H|].
  injection H as H. now apply IH.
Qed.

Lemma str_inj n m : str n = str m -> n = m.
Proof.
  unfold str; intros H.
  apply (f_equal NilEmpty.uint_of_string) in H.
  rewrite !NilEmpty.usu in H. injection H as H.
  apply (f_equal Nat.of_uint) in H. now rewrite !Unsigned.of_to in H.
Qed.

Lemma generate_from_pids draws :
  forall i,
    map pid (generate_from i draws)
    = map (fun k => ("random" ++ str (k + 1))%string) (seq i (length draws)).
Proof.
  induction draws as [|[c a] draws IH]; intros i; simpl; [reflexivity|].
  now rewrite IH.
Qed.

Lemma generate_from_drawn draws :
  Forall drawn draws ->
  forall i p, In p (generate_from i draws) ->
              (0 < cbt p)%Z /\ (0 <= at_ p)%Z /\
              p = new_process (pid p) (cbt p) (at_ p).
Proof.
  induction 1 as [|[c a] draws (Hc & Ha) Hd IH]; intros i p; simpl; [tauto|].
  intros [<-|Hp]; [|now apply (IH (S i))].
  simpl in *. repeat split; lia.
Qed.

Lemma generate_random_processes_well_formed draws (l : list process) :
  Forall drawn draws -> well_formed (generate_random_processes draws l).
Proof.
  intros Hd. unfold generate_random_processes, clear_processes. simpl. split.
  - rewrite generate_from_pids.
    apply Finite.Injective_map_NoDup_in; [|apply seq_NoDup].
    intros x y _ _ H. apply append_inj, str_inj in H. lia.
  - intros p Hp. eapply generate_from_drawn; eauto.
Qed.

(** The simulation leaves [self.processes] as it was. *)
Lemma simulate_all_keeps fuel (ps : list process) cs q :
  let '(_, st, _) :=
    simulate_all_algorithms fuel (objects_of ps) (store_of ps) (length ps)
                            cs q in
  map st (objects_of ps) = ps.
Proof.
  unfold simulate_all_algorithms.
  destruct (objects_of ps) as [|o os] eqn:Eo.
  - destruct ps; [reflexivity|discriminate Eo].
  - rewrite <- Eo.
    pose proof (simulate_loop_frame fuel (objects_of ps) cs q algorithms
                                    (store_of ps) (length ps) []) as H.
    destruct (simulate_loop fuel algorithms (objects_of ps) (store_of ps)
                            (length ps) cs q []) as [[out st'] next'].
    destruct H as (_ & H).
    transitivity (map (store_of ps) (objects_of ps));
      [|apply store_of_objects].
    apply map_ext_in. intros a Ha. apply H. now apply objects_below.
Qed.

Lemma simulate_command_processes fuel q cs w :
  Window.processes (fst (simulate_command fuel q cs w)) = Window.processes w.
Proof.
  unfold simulate_command.
  destruct (Window.processes w) as [|p l] eqn:E; [exact E|].
  destruct q as [q|]; [|exact E].
  destruct cs as [cs|]; [|exact E].
  pose proof (simulate_all_keeps fuel (p :: l) cs q) as H.
  destruct (simulate_all_algorithms fuel (objects_of (p :: l))
              (store_of (p :: l)) (length (p :: l)) cs q) as [[out st] next].
  exact H.
Qed.

Lemma simulate_command_results fuel q cs w :
  Window.last_simulation_results (fst (simulate_command fuel q cs w))
  = Window.last_simulation_results w.
Proof.
  unfold simulate_command.
  destruct (Window.processes w) as [|p l]; [reflexivity|].
  destruct q as [q|]; [|reflexivity].
  destruct cs as [cs|]; [|reflexivity].
  destruct (simulate_all_algorithms _ _ _ _ _ _) as [[out st] next].
  reflexivity.
Qed.

Lemma press_checked w a :
  checked a -> well_formed (Window.processes w) ->
  well_formed (Window.processes (press w a)).
Proof.
  intros Hc Hwf. destruct a; simpl in *; try tauto.
  - now apply add_process_well_formed.
  - apply well_formed_nil.
  - apply generate_random_processes_well_formed, Hc.
  - now apply delete_process_well_formed.
  - now rewrite simulate_command_processes.
Qed.

(** Every list the window can hold after commands that validate what they
    store (adding, deleting, clearing, generating a random list,
    simulating, exporting; not editing, not adding one random process) is
    well formed: distinct ids, positive bursts, arrivals that are not
    negative, metrics untouched.  When it is not empty it is a valid input
    of the engines, with unique ids, and no process has been dispatched
    before. *)
Theorem checked_commands_keep_list_well_formed (actions : list action) cs :
  Forall checked actions ->
  let l := Window.processes (fold_left press actions new_window) in
  well_formed l /\
  (l <> [] -> 0 <= cs ->
   valid_input (store_of l) (objects_of l) cs /\
   unique_ids (store_of l) (objects_of l) /\
   fresh_input (store_of l) (objects_of l)).
Proof.
  intros Hc l.
  assert (Hwf : well_formed l).
  { unfold l. clear l.
    assert (H0 : well_formed (Window.processes new_window))
      by apply well_formed_nil.
    revert H0. generalize new_window.
    induction Hc as [|a actions Ha Hc IH]; intros w Hw; simpl; [exact Hw|].
    apply IH. now apply press_checked. }
  split; [exact Hwf|]. intros Hne Hcs. now apply well_formed_input.
Qed.

Lemma checked_commands_keep_list_well_formed_witness :
  let l :=
    Window.processes
      (fold_left press
         [AddProcess "P1" (Some 5%Z) (Some 0%Z);
          AddProcess "P1" (Some 3%Z) (Some 1%Z);
          GenerateRandom [(4, 0); (20, 10); (1, 3); (7, 7); (2, 2)]%Z;
          DeleteProcess (Some (CellStr "random2"));
          SimulateAll 100 (Some 2%Z) (Some (1 # 2))]
         new_window) in
  well_formed l.
Proof.
  refine (proj1 (checked_commands_keep_list_well_formed _ 0 _)).
  repeat constructor; simpl; lia.
Defined.

(** No command assigns [self.last_simulation_results]: whatever the user
    has done with the window, [export_results] shows "Run simulation
    first" and writes no row. *)
Theorem export_never_finds_results (actions : list action) :
  export_results (fold_left press actions new_window) = inr ShowRunFirst.
Proof.
  assert (H : forall w,
             Window.last_simulation_results w = None ->
             Window.last_simulation_results (fold_left press actions w)
             = None).
  { induction actions as [|a actions IH]; intros w Hw; simpl; [exact Hw|].
    apply IH. destruct a; simpl; try exact Hw.
    now rewrite simulate_command_results. }
  unfold export_results. now rewrite H.
Qed.


(** ** Commands that do not validate *)

(** [add_one_random] names the new process after the length of the list
    and does not look for the name in it.  On a well-formed list the result
    is well formed exactly when no process is called
    ["random" + str(len + 1)] yet; otherwise two processes share an id. *)
Theorem add_one_random_can_repeat_an_id (l : list process) c a :
  drawn (c, a) -> well_formed l ->
  (well_formed (add_one_random c a l)
   <-> ~ In ("random" ++ str (length l + 1))%string (map pid l)).
Proof.
  intros (Hc & Ha) Hwf. simpl in Hc, Ha. unfold add_one_random. split.
  - intros (Hnd & _) Hin. rewrite map_app in Hnd. simpl in Hnd.
    apply NoDup_remove_2 in Hnd. rewrite app_nil_r in Hnd. exact (Hnd Hin).
  - intros Hn. apply well_formed_snoc; auto; lia.
Qed.

Lemma add_one_random_can_repeat_an_id_witness :
  let l :=
    fst (delete_process (Some (CellStr "random1"))
           (generate_random_processes
              [(4, 0); (20, 10); (1, 3); (7, 7); (2, 2)]%Z [])) in
  ~ well_formed (add_one_random 3 0 l).
Proof.
  intros l Hwf.
  assert (Hl : well_formed l).
  { apply delete_process_well_formed, generate_random_processes_well_formed.
    repeat constructor; simpl; lia. }
  apply (add_one_random_can_repeat_an_id l 3 0) in Hwf;
    [| split; simpl; lia | exact Hl].
  apply Hwf. vm_compute. tauto.
Defined.

Lemma filter_pid_absent s (l : list process) :
  ~ In s (map pid l) ->
  filter (fun p => negb (pid_is (CellStr s) p)) l = l.
Proof.
  intros Hn. apply filter_all. intros p Hp. simpl.
  apply negb_true_iff, String.eqb_neq. intros Heq. apply Hn.
  rewrite <- Heq. now apply in_map.
Qed.

Lemma pid_split s (l : list process) :
  NoDup (map pid l) -> In s (map pid l) ->
  exists pre p post,
    l = pre ++ p :: post /\ pid p = s /\
    ~ In s (map pid pre) /\ ~ In s (map pid post).
Proof.
  intros Hnd Hin. apply in_map_iff in Hin. destruct Hin as (p & Hp & Hin).
  apply in_split in Hin. destruct Hin as (pre & post & ->).
  exists pre, p, post. split; [reflexivity|]. split; [exact Hp|].
  rewrite map_app in Hnd. simpl in Hnd. apply NoDup_remove_2 in Hnd.
  rewrite Hp in Hnd. rewrite in_app_iff in Hnd. tauto.
Qed.

(** [delete_process] on a well-formed list, for a selected row whose id
    cell is the text [s] of a process of the list: exactly that process
    goes, the others stay in their order, and the list is still well
    formed.  When the id cell comes back as a number, no process id is
    equal to it and the list stays as it is. *)
Theorem delete_process_removes_the_selected (l : list process) s :
  well_formed l -> In s (map pid l) ->
  (exists pre p post,
      l = pre ++ p :: post /\ pid p = s /\
      delete_process (Some (CellStr s)) l = (pre ++ post, None)) /\
  well_formed (fst (delete_process (Some (CellStr s)) l)) /\
  forall x, delete_process (Some (CellNumber x)) l = (l, None).
Proof.
  intros Hwf Hin. split; [|split].
  - destruct (pid_split s l (proj1 Hwf) Hin)
      as (pre & p & post & -> & Hp & Hpre & Hpost).
    exists pre, p, post. split; [reflexivity|]. split; [exact Hp|].
    unfold delete_process. rewrite filter_app. cbn [filter].
    rewrite (filter_pid_absent s pre Hpre), (filter_pid_absent s post Hpost).
    simpl. rewrite Hp, String.eqb_refl. reflexivity.
  - now apply delete_process_well_formed.
  - intros z. unfold delete_process. f_equal.
    apply filter_all. reflexivity.
Qed.

Lemma two_processes_well_formed :
  well_formed [new_process "P1" 5 0; new_process "P2" 3 1].
Proof.
  apply (well_formed_snoc [new_process "P1" 5 0] "P2" 3 1); try lia.
  - apply (well_formed_snoc [] "P1" 5 0); try lia;
      [apply well_formed_nil | intros []].
  - simpl. intros [H|[]]. discriminate H.
Qed.

Lemma delete_process_removes_the_selected_witness :
  well_formed
    (fst (delete_process (Some (CellStr "P1"))
            [new_process "P1" 5 0; new_process "P2" 3 1])).
Proof.
  refine (proj1 (proj2 (delete_process_removes_the_selected
                          [new_process "P1" 5 0; new_process "P2" 3 1] "P1"
                          two_processes_well_formed _))).
  simpl. now left.
Defined.






(** ** A burst of zero *)








(** * The lists of the metrics *)






















(** * The quantum and the ready queue *)

(** RR tests the quantum, SRTF does not.  With a quantum that is zero or
    negative, on every valid input, [rr_scheduling] raises [ValueError]
    at once, and [srtf_scheduling] never returns: whatever the number of
    passes allowed, its loop is still running. *)
Theorem quantum_guard_only_in_rr st ps cs q :
  valid_input st ps cs -> (q <= 0)%Z ->
  forall fuel,
    result (rr_scheduling fuel st ps cs q) = Raise ValueError /\
    result (srtf_scheduling fuel st ps cs q) = OutOfFuel.
Proof.
  intros Hv Hq fuel. split.
  - now rewrite rr_rejects_quantum.
  - now apply srtf_quantum_diverges.
Qed.

Lemma quantum_guard_only_in_rr_witness :
  result (rr_scheduling 1000 scenario [0; 1; 2]%nat (1 # 2) (-1))
  = Raise ValueError /\
  result (srtf_scheduling 1000 scenario [0; 1; 2]%nat (1 # 2) (-1))
  = OutOfFuel.
Proof.
  apply (quantum_guard_only_in_rr scenario [0; 1; 2]%nat (1 # 2) (-1)
                                  scenario_valid_switch).
  lia.
Defined.

Lemma take_arrived_sorted_rest st t l :
  sorted_at st l ->
  snd (take_arrived st t l)
  = filter (fun p => negb (Qle_bool (inject_Z (at_ (st p))) t)) l.
Proof.
  induction l as [|p l IH]; intros Hs; [reflexivity|].
  destruct Hs as (Hp & Hs). simpl.
  destruct (Qle_bool (inject_Z (at_ (st p))) t) eqn:E; simpl.
  - specialize (IH Hs). destruct (take_arrived st t l) as [moved kept].
    exact IH.
  - f_equal. symmetry. apply filter_all. intros x Hx.
    apply negb_true_iff.
    destruct (Qle_bool (inject_Z (at_ (st x))) t) eqn:E'; [|reflexivity].
    apply Qle_bool_iff in E'. specialize (Hp x Hx).
    rewrite Zle_Qle in Hp.
    assert (Hle : inject_Z (at_ (st p)) <= t) by lra.
    apply Qle_bool_iff in Hle. congruence.
Qed.

(** One slice of RR when the pending list is in arrival order: the ready
    queue afterwards is the old queue, then every pending process that has
    arrived by the new clock, in arrival order, then the process that ran
    if it has work left; the pending list keeps the processes that have
    not arrived, in their order. *)
Theorem rr_slice_admits_arrivals_in_order cs q st c queue pending t tl :
  sorted_at st pending ->
  let '(st', queue', pending', t', _) :=
    rr_slice cs q st c queue pending t tl in
  t' = t + inject_Z (Z.min q (remaining_time (st c))) + cs /\
  queue' = queue ++ eligible_at st t' pending
                 ++ (if Z.ltb 0 (remaining_time (st' c)) then [c] else []) /\
  pending'
  = filter (fun p => negb (Qle_bool (inject_Z (at_ (st p))) t')) pending /\
  sorted_at st pending'.
Proof.
  intros Hs.
  destruct (rr_slice_spec cs q st c queue pending t tl)
    as (st' & tl' & -> & _ & _ & -> & _).
  split; [reflexivity|].
  rewrite take_arrived_sorted by exact Hs.
  rewrite take_arrived_sorted_rest by exact Hs.
  split; [now rewrite app_assoc|]. split; [reflexivity|].
  now apply sorted_at_filter.
Qed.

Lemma rr_slice_admits_arrivals_in_order_witness :
  let '(st', queue', pending', t', _) :=
    rr_slice 0 2 scenario 0%nat [] [1; 2]%nat 0 tally0 in
  t' = 0 + inject_Z (Z.min 2 (remaining_time (scenario 0%nat))) + 0 /\
  queue' = [] ++ eligible_at scenario t' [1; 2]%nat
              ++ (if Z.ltb 0 (remaining_time (st' 0%nat)) then [0%nat]
                  else []) /\
  pending'
  = filter (fun p => negb (Qle_bool (inject_Z (at_ (scenario p))) t'))
           [1; 2]%nat /\
  sorted_at scenario pending'.
Proof.
  apply (rr_slice_admits_arrivals_in_order 0 2 scenario 0%nat [] [1; 2]%nat 0
                                           tally0).
  simpl. repeat split; try tauto; intros x [<-|[]]; simpl; lia.
Defined.


(** * From the window to the charts *)




(** * The colours of the charts *)











(** ** The ids of the Gantt data *)












(** * The controls of the animation *)

Lemma py_min_spec (a b : Q) :
  (a <= b -> py_min a b = a) /\ (b < a -> py_min a b = b).
Proof.
  unfold py_min. destruct (Qlt_bool b a) eqn:E.
  - apply Qlt_bool_iff in E. split; [intros; lra | reflexivity].
  - apply Qlt_bool_false in E. split; [reflexivity | intros; lra].
Qed.

Lemma animation_from (max_time : Q) :
  forall n c,
    c <= max_time ->
    let s := animation n max_time (Timeline.mk c true) in
    let elapsed := inject_Z (Z.of_nat n) * (1 # 2) in
    (c + elapsed <= max_time -> Timeline.current_time s == c + elapsed) /\
    (max_time <= c + elapsed -> Timeline.current_time s == max_time) /\
    (Timeline.is_running s = false
     <-> (0 < n)%nat /\ max_time + (1 # 2) <= c + elapsed).
Proof.
  induction n as [|n IH]; intros c Hc.
  - cbn [animation Timeline.current_time Timeline.is_running Z.of_nat].
    change (inject_Z 0) with 0.
    split; [intros; lra|]. split; [intros; lra|].
    split; [discriminate | intros (H & _); lia].
  - assert (Hn : 0 <= inject_Z (Z.of_nat n))
      by (change 0 with (inject_Z 0); rewrite <- Zle_Qle; lia).
    assert (Hs : inject_Z (Z.of_nat (S n)) == inject_Z (Z.of_nat n) + 1).
    { rewrite Nat2Z.inj_succ. unfold Z.succ. rewrite inject_Z_plus.
      reflexivity. }
    assert (Hone : (0 < n)%nat -> 1 <= inject_Z (Z.of_nat n)).
    { intros Hpos. change 1 with (inject_Z 1). rewrite <- Zle_Qle. lia. }
    assert (Hzero : ~ (0 < n)%nat -> inject_Z (Z.of_nat n) == 0).
    { intros Hpos. replace n with 0%nat by lia. reflexivity. }
    cbn [animation]. unfold animate_timeline.
    cbn [Timeline.is_running Timeline.current_time].
    cbv zeta. set (e := inject_Z (Z.of_nat (S n))) in *.
    destruct (Qlt_bool c max_time) eqn:E.
    + apply Qlt_bool_iff in E.
      destruct (py_min_spec (c + (1 # 2)) max_time) as (Hle & Hgt).
      destruct (Qlt_le_dec max_time (c + (1 # 2))) as [Hlt|Hge].
      * rewrite (Hgt Hlt).
        destruct (IH max_time (Qle_refl _)) as (H1 & H2 & H3).
        cbv zeta in H1, H2, H3.
        set (s := animation n max_time (Timeline.mk max_time true)) in *.
        set (e' := inject_Z (Z.of_nat n)) in *.
        split; [intros; lra|].
        split; [intros; apply H2; lra|].
        rewrite H3. split.
        -- intros (Hpos & _). split; [lia|]. specialize (Hone Hpos). lra.
        -- intros (_ & H).
           destruct (lt_dec 0 n) as [Hpos|Hpos].
           ++ specialize (Hone Hpos). split; [exact Hpos|lra].
           ++ specialize (Hzero Hpos). exfalso. lra.
      * rewrite (Hle Hge).
        destruct (IH (c + (1 # 2)) Hge) as (H1 & H2 & H3).
        cbv zeta in H1, H2, H3.
        set (s := animation n max_time (Timeline.mk (c + (1 # 2)) true)) in *.
        set (e' := inject_Z (Z.of_nat n)) in *.
        split; [intros; rewrite H1; lra|].
        split; [intros; apply H2; lra|].
        rewrite H3. split.
        -- intros (Hpos & H). split; [lia|lra].
        -- intros (_ & H). split; [|lra].
           destruct (lt_dec 0 n) as [Hpos|Hpos]; [exact Hpos|].
           specialize (Hzero Hpos). exfalso. lra.
    + apply Qlt_bool_false in E.
      unfold pause_timeline.
      cbn [Timeline.is_running Timeline.current_time].
      set (e' := inject_Z (Z.of_nat n)) in *.
      split; [intros; lra|]. split; [intros; lra|].
      split; [intros _; split; [lia|lra] | reflexivity].
Qed.

(** Pressing Start on a new timeline, for a [max_time] that is not
    negative: once [animate_timeline] has run [n + 1] times the time shown
    is [(n + 1) / 2], capped at [max_time]; it never passes [max_time], and
    the animation has paused itself exactly when one of these runs found
    the time at [max_time]. *)
Theorem animation_stops_at_max_time max_time n :
  0 <= max_time ->
  let s := start_timeline n max_time (Timeline.mk 0 false) in
  let elapsed := inject_Z (Z.of_nat (S n)) * (1 # 2) in
  (elapsed <= max_time -> Timeline.current_time s == elapsed) /\
  (max_time <= elapsed -> Timeline.current_time s == max_time) /\
  (Timeline.is_running s = false <-> max_time + (1 # 2) <= elapsed).
Proof.
  intros Hmax. unfold start_timeline. cbn [Timeline.is_running].
  cbn [Timeline.current_time].
  destruct (animation_from max_time (S n) 0 Hmax) as (H1 & H2 & H3).
  cbv zeta in *. split; [intros; rewrite H1; lra|].
  split; [intros; apply H2; lra|].
  rewrite H3. split; [intros (_ & H); lra | intros H; split; [lia|lra]].
Qed.

Lemma animation_stops_at_max_time_witness :
  let s := start_timeline 4 (3 # 2) (Timeline.mk 0 false) in
  Timeline.current_time s == 3 # 2 /\ Timeline.is_running s = false.
Proof.
  destruct (animation_stops_at_max_time (3 # 2) 4) as (_ & H2 & H3).
  - discriminate.
  - split; [apply H2; discriminate|].
    apply H3. discriminate.
Defined.
